(** * api/client: connection establishment and lifecycle of the gRPC client

    A shallow embedding of [api/client/client.go]: the lifecycle flag of a
    [Client] with its two compare-and-swap transitions, [Close], the dialer
    wrapper [grpcDialer], and the race that [connectWithAuth] runs between
    the goroutines it starts with [go syncConnect(...)].

    Goroutines are modelled by an interleaving semantics: a state holds the
    client [connectWithAuth] was called on, the variable [c] that the closure
    [syncConnect] shares with its caller, the program point of the calling
    goroutine and of every started attempt; an action names the goroutine
    that moves and carries the answer of the outside world (the result of a
    dial or of a Ping, the passing of time).  Unbuffered channels are
    rendezvous: a send is a step only when the receiver stands in its
    [select]. *)

From Stdlib Require Import ZArith Lia.
From stdpp Require Import base list strings.

Open Scope Z_scope.

(** ** Values that come from outside the package *)

(** Go's [time.Duration]: a number of nanoseconds. *)
Definition Duration := Z.

(** [time.Second]. *)
Definition time_Second : Duration := 1000000000.

(** Errors.  [ExtErr] stands for an error value handed over by a collaborator
    (credentials, dialer, gRPC); the other constructors are the ones
    [client.go] builds itself. *)
#[local] Unset Elimination Schemes.
Inductive error :=
| ExtErr (msg : string)
| DeadlineExceeded
| ConnectionProblem (cause : option error) (msg : string)
| Aggregate (errs : list error)
| WrapMsg (e : error) (msg : string).
#[local] Set Elimination Schemes.

(** [trace.Wrap(err)]: keeps a nil error nil and keeps the error as the cause. *)
Definition traceWrap (err : option error) : option error := err.

(** [trace.Wrap(err, msg)] on a non-nil error. *)
Definition traceWrapMsg (e : error) (msg : string) : error := WrapMsg e msg.

(** [trace.NewAggregate(errs...)]: nil when there is nothing to aggregate. *)
Definition traceNewAggregate (errs : list error) : option error :=
  match errs with
  | [] => None
  | _ :: _ => Some (Aggregate errs)
  end.

(** The errors an error value reports: an aggregate reports its members, a
    wrapper what it wraps, any other error itself. *)
Fixpoint causes (e : error) : list error :=
  match e with
  | Aggregate l => flat_map causes l
  | WrapMsg e' _ => causes e'
  | _ => [e]
  end.

Inductive tls_Config := TLS (name : string).
Inductive ssh_ClientConfig := SSH (name : string).

(** [ContextDialer] values.  [NewDialer] and [NewTunnelDialer] are declared
    outside the sources at hand; they are kept as the constructor applied to
    the arguments [client.go] passes. *)
Inductive ContextDialer :=
| CustomDialer (name : string)
| NewDialer (keepAlivePeriod dialTimeout : Duration)
| NewTunnelDialer (ssh : ssh_ClientConfig) (keepAlivePeriod dialTimeout : Duration).

(** A [*grpc.ClientConn] is a handle into the table of connections. *)
Definition grpc_ClientConn := nat.

(** [proto.NewAuthServiceClient(conn)]. *)
Inductive AuthServiceClient := NewAuthServiceClient (conn : grpc_ClientConn).

Record PingResponse := { PublicTunnelAddr : string }.

(** Modelled from the spec: [constants.APIDomain] is declared outside the
    sources at hand; it is the fixed well-known domain name dialed when a
    dialer is supplied by the credentials or by the configuration. *)
Definition APIDomain : string := "teleport.cluster.local".

(** The [Credentials] interface: each method with the pair it returns. *)
Module Credentials.
Record t := {
  TLSConfig : option tls_Config * option error;
  SSHConfig : option ssh_ClientConfig * option error;
  Dialer : option ContextDialer * option error
}.
End Credentials.

Module Config.
Record t := {
  Addrs : list string;
  Dialer : option ContextDialer;
  DialTimeout : Duration;
  KeepAlivePeriod : Duration;
  KeepAliveCount : Z;
  Credentials : list Credentials.t;
  WithoutDialBlock : bool
}.
End Config.

(** ** The client and its lifecycle flag *)

Definition unsetFlag : Z := 0.
Definition openFlag : Z := 1.
Definition closedFlag : Z := 2.

Module Client.
Record t := {
  c : Config.t;
  tlsConfig : option tls_Config;
  sshConfig : option ssh_ClientConfig;
  dialer : option ContextDialer;
  grpc : option AuthServiceClient;
  conn : option grpc_ClientConn;
  atomicFlag : Z
}.

Definition with_tlsConfig (v : option tls_Config) (x : t) : t :=
  {| c := c x; tlsConfig := v; sshConfig := sshConfig x; dialer := dialer x;
     grpc := grpc x; conn := conn x; atomicFlag := atomicFlag x |}.
Definition with_sshConfig (v : option ssh_ClientConfig) (x : t) : t :=
  {| c := c x; tlsConfig := tlsConfig x; sshConfig := v; dialer := dialer x;
     grpc := grpc x; conn := conn x; atomicFlag := atomicFlag x |}.
Definition with_dialer (v : option ContextDialer) (x : t) : t :=
  {| c := c x; tlsConfig := tlsConfig x; sshConfig := sshConfig x; dialer := v;
     grpc := grpc x; conn := conn x; atomicFlag := atomicFlag x |}.
Definition with_grpc (v : option AuthServiceClient) (x : t) : t :=
  {| c := c x; tlsConfig := tlsConfig x; sshConfig := sshConfig x; dialer := dialer x;
     grpc := v; conn := conn x; atomicFlag := atomicFlag x |}.
Definition with_conn (v : option grpc_ClientConn) (x : t) : t :=
  {| c := c x; tlsConfig := tlsConfig x; sshConfig := sshConfig x; dialer := dialer x;
     grpc := grpc x; conn := v; atomicFlag := atomicFlag x |}.
Definition with_atomicFlag (v : Z) (x : t) : t :=
  {| c := c x; tlsConfig := tlsConfig x; sshConfig := sshConfig x; dialer := dialer x;
     grpc := grpc x; conn := conn x; atomicFlag := v |}.
End Client.

(** [clt := &Client{c: cfg}] in [New]. *)
Definition newClient (cfg : Config.t) : Client.t :=
  {| Client.c := cfg; Client.tlsConfig := None; Client.sshConfig := None;
     Client.dialer := None; Client.grpc := None; Client.conn := None;
     Client.atomicFlag := unsetFlag |}.

(** [atomic.CompareAndSwapInt32(&c.atomicFlag, old, new)] as one step: the
    answer and the client afterwards. *)
Definition compareAndSwapInt32 (old new : Z) (x : Client.t) : bool * Client.t :=
  if Client.atomicFlag x =? old
  then (true, Client.with_atomicFlag new x)
  else (false, x).

(** [atomic.LoadInt32(&c.atomicFlag)]. *)
Definition loadInt32 (x : Client.t) : Z := Client.atomicFlag x.

Definition isClosed (x : Client.t) : bool := loadInt32 x =? closedFlag.
Definition setOpen (x : Client.t) : bool * Client.t :=
  compareAndSwapInt32 unsetFlag openFlag x.
Definition setClosed (x : Client.t) : bool * Client.t :=
  compareAndSwapInt32 openFlag closedFlag x.

(** The operations that touch the flag, and a history of them applied in
    order. *)
Inductive flagOp := OpSetOpen | OpSetClosed | OpIsClosed.

Definition applyOp (o : flagOp) (x : Client.t) : bool * Client.t :=
  match o with
  | OpSetOpen => setOpen x
  | OpSetClosed => setClosed x
  | OpIsClosed => (isClosed x, x)
  end.

Fixpoint applyOps (ops : list flagOp) (x : Client.t) : Client.t :=
  match ops with
  | [] => x
  | o :: ops' => applyOps ops' (snd (applyOp o x))
  end.

(** The changes of value that a history makes to the flag, each with the
    operation that made it and the values before and after. *)
Fixpoint transitions (ops : list flagOp) (x : Client.t) : list (flagOp * Z * Z) :=
  match ops with
  | [] => []
  | o :: ops' =>
      let x' := snd (applyOp o x) in
      if Client.atomicFlag x =? Client.atomicFlag x'
      then transitions ops' x'
      else (o, Client.atomicFlag x, Client.atomicFlag x') :: transitions ops' x'
  end.

(** ** The table of connections *)

(** What is known of a [grpc.ClientConn]: the dialer, target and TLS config it
    was created with, the goroutine that created it, and how many times its
    [Close] method ran.  The dialer is the one [getClientConn] was given; the
    connection dials through the wrapper [c.grpcDialer(dialer)] around it. *)
Record ClientConn := {
  connDialer : option ContextDialer;
  connTarget : string;
  connTLS : option tls_Config;
  connOpenedBy : nat;
  connReleased : nat
}.

Definition release (k : ClientConn) : ClientConn :=
  {| connDialer := connDialer k; connTarget := connTarget k; connTLS := connTLS k;
     connOpenedBy := connOpenedBy k; connReleased := S (connReleased k) |}.

Definition connOpen (k : ClientConn) : bool := Nat.eqb (connReleased k) 0.

(** How many times the connection behind a handle was released. *)
Definition releasedCount (conns : list ClientConn) (h : grpc_ClientConn) : nat :=
  match conns !! h with
  | Some k => connReleased k
  | None => O
  end.

(** ** Close *)

(** How a call ends: it returns an error value (nil or not), or it panics. *)
Inductive outcome :=
| Returns (err : option error)
| Panics.

(** [conn.Close()] on a connection handle: the connection is released and the
    call answers what the connection reports, [closeErr]. *)
Definition connClose (closeErr : grpc_ClientConn -> option error)
    (h : grpc_ClientConn) (conns : list ClientConn) : option error * list ClientConn :=
  (closeErr h,
   match conns !! h with
   | Some k => <[h := release k]> conns
   | None => conns
   end).

(** [func (c *Client) Close() error].  With the claim won and [c.conn] nil the
    method call [c.conn.Close()] dereferences a nil pointer. *)
Definition Close (closeErr : grpc_ClientConn -> option error)
    (x : Client.t) (conns : list ClientConn) : outcome * Client.t * list ClientConn :=
  let '(won, x1) := setClosed x in
  if won then
    match Client.conn x1 with
    | Some h =>
        let '(err, conns') := connClose closeErr h conns in
        (Returns (traceWrap err), Client.with_conn None x1, conns')
    | None => (Panics, x1, conns)
    end
  else (Returns None, x, conns).

(** Concurrent callers of [Close].  A caller is before its compare-and-swap,
    between a won compare-and-swap and the release, or done. *)
Inductive closePC :=
| CStart
| CWon
| CDone (won : bool) (r : outcome).

Record CloseState := {
  cclient : Client.t;
  cconns : list ClientConn;
  callers : list closePC
}.

(** One step of caller [t]. *)
Definition closeStep (closeErr : grpc_ClientConn -> option error)
    (t : nat) (s : CloseState) : option CloseState :=
  match callers s !! t with
  | Some CStart =>
      let '(won, x1) := setClosed (cclient s) in
      Some {| cclient := x1; cconns := cconns s;
              callers := <[t := if won then CWon else CDone false (Returns None)]> (callers s) |}
  | Some CWon =>
      match Client.conn (cclient s) with
      | Some h =>
          let '(err, conns') := connClose closeErr h (cconns s) in
          Some {| cclient := Client.with_conn None (cclient s); cconns := conns';
                  callers := <[t := CDone true (Returns (traceWrap err))]> (callers s) |}
      | None =>
          Some {| cclient := cclient s; cconns := cconns s;
                  callers := <[t := CDone true Panics]> (callers s) |}
      end
  | Some (CDone _ _) => None
  | None => None
  end.

(** A schedule names the caller that moves next; a name that cannot move is
    skipped. *)
Fixpoint closeRun (closeErr : grpc_ClientConn -> option error)
    (sched : list nat) (s : CloseState) : CloseState :=
  match sched with
  | [] => s
  | t :: sched' =>
      match closeStep closeErr t s with
      | Some s' => closeRun closeErr sched' s'
      | None => closeRun closeErr sched' s
      end
  end.

Definition closeInit (x : Client.t) (conns : list ClientConn) (n : nat) : CloseState :=
  {| cclient := x; cconns := conns; callers := replicate n CStart |}.

Definition callerDone (p : closePC) : bool :=
  match p with CDone _ _ => true | _ => false end.
Definition callerWon (p : closePC) : bool :=
  match p with CWon | CDone true _ => true | _ => false end.

(** ** The dialer wrapper *)

(** A raw connection handed out by a dialer. *)
Inductive net_Conn := NetConn (id : nat).

(** One call of [DialContext] on the underlying dialer, as it is logged. *)
Record DialCall := {
  callDialer : ContextDialer;
  callNetwork : string;
  callAddr : string
}.

(** [dialer.DialContext(ctx, network, addr)]: the call is logged and the
    outside world, [answer], decides what comes back. *)
Definition DialContext
    (answer : ContextDialer -> string -> string -> option net_Conn * option error)
    (d : ContextDialer) (network addr : string) (log : list DialCall)
    : (option net_Conn * option error) * list DialCall :=
  (answer d network addr,
   log ++ [{| callDialer := d; callNetwork := network; callAddr := addr |}]).

(** The function returned by [c.grpcDialer(dialer)], applied to an address.
    It reads the flag of [c] when it is called.  [errText] is [err.Error()]. *)
Definition grpcDialer
    (answer : ContextDialer -> string -> string -> option net_Conn * option error)
    (errText : error -> string)
    (x : Client.t) (d : ContextDialer) (addr : string) (log : list DialCall)
    : (option net_Conn * option error) * list DialCall :=
  if isClosed x then
    ((None, Some (ConnectionProblem None "client is closed")), log)
  else
    let '((conn, err), log') := DialContext answer d "tcp" addr log in
    match err with
    | Some e => ((None, Some (ConnectionProblem (Some e) (errText e))), log')
    | None => ((conn, None), log')
    end.

(** ** The race run by connectWithAuth *)

(** What a call such as [getClientConn] hands back: a value with a nil error,
    or a non-nil error. *)
Inductive result (A : Type) :=
| Ok (a : A)
| Fail (e : error).
Arguments Ok {A} a.
Arguments Fail {A} e.

(** The variable [c] of [connectWithAuth] is a pointer that the closure
    [syncConnect] captures.  It points to the client the method was called
    on until [case c = <-clientChan] makes it point to the copy [clt] of the
    attempt that sent it, or makes it nil when the channel is closed. *)
Inductive clientRef :=
| TheClient
| CopyOf (g : nat)
| NilClient.

(** How an attempt ended. *)
Inductive attemptResult :=
| Won
| Lost
| Failed (e : error).

(** Program points of [syncConnect].  The variables that are live at a point
    are its arguments: [conn] is the variable declared on the first line of
    the closure, [conn'] the one declared by [:=] inside the tunnel branch,
    [service] the variable handed to [c.grpc]. *)
Inductive attemptPC :=
| PDial
| PPing (conn : grpc_ClientConn)
| PTunnelDial (conn : grpc_ClientConn) (tunnelDialer : ContextDialer)
| PTunnelPing (conn conn' : grpc_ClientConn)
| PSetOpen (conn : grpc_ClientConn) (service : AuthServiceClient)
| PInstall (conn : grpc_ClientConn) (service : AuthServiceClient)
| PSendClient
| PCloseChan
| PSendErr (e : error)
| PReturned (r : attemptResult).

(** A goroutine started by [go syncConnect(ctx, *c, dialer, addr)]: its copy
    [clt] of the client, its dialer and address, and where it stands.  Two
    fields are book-keeping only: the index of the credentials the goroutine
    was started for, and the client on which its [c.setOpen()] answered true,
    if it did. *)
Record Attempt := {
  clt : Client.t;
  adialer : option ContextDialer;
  aaddr : string;
  acred : nat;
  aclaim : option clientRef;
  apc : attemptPC
}.

Definition at_pc (p : attemptPC) (a : Attempt) : Attempt :=
  {| clt := clt a; adialer := adialer a; aaddr := aaddr a; acred := acred a;
     aclaim := aclaim a; apc := p |}.
Definition with_clt (x : Client.t) (a : Attempt) : Attempt :=
  {| clt := x; adialer := adialer a; aaddr := aaddr a; acred := acred a;
     aclaim := aclaim a; apc := apc a |}.
Definition claimed_at (r : clientRef) (p : attemptPC) (a : Attempt) : Attempt :=
  {| clt := clt a; adialer := adialer a; aaddr := aaddr a; acred := acred a;
     aclaim := Some r; apc := p |}.

(** Program points of the calling goroutine. *)
Inductive mainPC :=
| MRange (i : nat)
| MSendErr (i : nat) (e : error)
| MSelect
| MReturned (r : option error).

(** The state of a race.  [panicked] records that a statement of
    [syncConnect] has panicked: a call or an assignment through a nil [c], a
    send on the closed [clientChan], or closing it a second time. *)
Record State := {
  client : Client.t;
  cvar : clientRef;
  mainpc : mainPC;
  errs : list error;
  pool : list Attempt;
  conns : list ClientConn;
  clientChanClosed : bool;
  panicked : bool;
  now : Duration;
  deadline : Duration
}.

Definition set_client (v : Client.t) (s : State) : State :=
  {| client := v; cvar := cvar s; mainpc := mainpc s; errs := errs s; pool := pool s;
     conns := conns s; clientChanClosed := clientChanClosed s; panicked := panicked s;
     now := now s; deadline := deadline s |}.
Definition set_cvar (v : clientRef) (s : State) : State :=
  {| client := client s; cvar := v; mainpc := mainpc s; errs := errs s; pool := pool s;
     conns := conns s; clientChanClosed := clientChanClosed s; panicked := panicked s;
     now := now s; deadline := deadline s |}.
Definition set_mainpc (v : mainPC) (s : State) : State :=
  {| client := client s; cvar := cvar s; mainpc := v; errs := errs s; pool := pool s;
     conns := conns s; clientChanClosed := clientChanClosed s; panicked := panicked s;
     now := now s; deadline := deadline s |}.
Definition set_errs (v : list error) (s : State) : State :=
  {| client := client s; cvar := cvar s; mainpc := mainpc s; errs := v; pool := pool s;
     conns := conns s; clientChanClosed := clientChanClosed s; panicked := panicked s;
     now := now s; deadline := deadline s |}.
Definition set_pool (v : list Attempt) (s : State) : State :=
  {| client := client s; cvar := cvar s; mainpc := mainpc s; errs := errs s; pool := v;
     conns := conns s; clientChanClosed := clientChanClosed s; panicked := panicked s;
     now := now s; deadline := deadline s |}.
Definition set_conns (v : list ClientConn) (s : State) : State :=
  {| client := client s; cvar := cvar s; mainpc := mainpc s; errs := errs s; pool := pool s;
     conns := v; clientChanClosed := clientChanClosed s; panicked := panicked s;
     now := now s; deadline := deadline s |}.
Definition set_clientChanClosed (v : bool) (s : State) : State :=
  {| client := client s; cvar := cvar s; mainpc := mainpc s; errs := errs s; pool := pool s;
     conns := conns s; clientChanClosed := v; panicked := panicked s;
     now := now s; deadline := deadline s |}.
Definition set_panicked (v : bool) (s : State) : State :=
  {| client := client s; cvar := cvar s; mainpc := mainpc s; errs := errs s; pool := pool s;
     conns := conns s; clientChanClosed := clientChanClosed s; panicked := v;
     now := now s; deadline := deadline s |}.
Definition set_now (v : Duration) (s : State) : State :=
  {| client := client s; cvar := cvar s; mainpc := mainpc s; errs := errs s; pool := pool s;
     conns := conns s; clientChanClosed := clientChanClosed s; panicked := panicked s;
     now := v; deadline := deadline s |}.

(** Attempt [g] changes as [f] says. *)
Definition upd_attempt (g : nat) (f : Attempt -> Attempt) (s : State) : State :=
  set_pool (alter f g (pool s)) s.

(** The state in which [connectWithAuth] starts, called by [New] on a fresh
    client: both channels are empty, the clock reads zero and [dialContext]
    ends [time.Second] later. *)
Definition initState (cfg : Config.t) : State :=
  {| client := newClient cfg; cvar := TheClient; mainpc := MRange 0; errs := [];
     pool := []; conns := []; clientChanClosed := false; panicked := false;
     now := 0; deadline := 0 + time_Second |}.

(** [<-dialContext.Done()] can be taken. *)
Definition dialContextDone (s : State) : bool := deadline s <=? now s.

(** Reading and writing the client that [c] points to. *)
Definition derefC (s : State) : option Client.t :=
  match cvar s with
  | TheClient => Some (client s)
  | CopyOf g => clt <$> pool s !! g
  | NilClient => None
  end.

Definition writeC (x : Client.t) (s : State) : State :=
  match cvar s with
  | TheClient => set_client x s
  | CopyOf g => upd_attempt g (with_clt x) s
  | NilClient => s
  end.

(** [func (c *Client) getClientConn(ctx, dialer, addr)], called by goroutine
    [g] on client [x]: [answer] is the error of [grpc.DialContext]; when it
    is nil a new connection enters the table.  The connection is given the
    wrapper [c.grpcDialer(dialer)] as its dialer: the table keeps [dialer]
    and [g], and [connWrapper] below is that wrapper (in [syncConnect] the
    receiver [c] is the copy [clt] of attempt [g]).  When and how often gRPC
    dials through the wrapper is up to gRPC (with [WithoutDialBlock] it
    returns before any dial, with [grpc.WithBlock] after one that succeeded),
    so the answer is left to the outside world and the wrapper is not run
    here.  In a race no wrapper ever refuses a dial
    ([race_wrapper_not_refused]), and none meets a nil dialer unless a
    credential set hands one out with a nil error ([NotNilInv_run]); with
    such a credential set the wrapper panics at the call
    [dialer.DialContext], while the steps below take the answer of
    [grpc.DialContext] as given and do not run into that panic. *)
Definition getClientConn (g : nat) (x : Client.t) (d : option ContextDialer)
    (addr : string) (answer : option error) (cs : list ClientConn)
    : result grpc_ClientConn * list ClientConn :=
  match traceWrap answer with
  | Some e => (Fail e, cs)
  | None =>
      (Ok (length cs),
       cs ++ [{| connDialer := d; connTarget := addr; connTLS := Client.tlsConfig x;
                 connOpenedBy := g; connReleased := O |}])
  end.

(** [errChan <- e]: the channel is unbuffered and its only receive is the
    [select] at the end of [connectWithAuth], so the send is a step exactly
    when the calling goroutine stands there; the value joins [errs]. *)
Definition sendErr (e : error) (s : State) : option State :=
  match mainpc s with
  | MSelect => Some (set_errs (errs s ++ [e]) s)
  | _ => None
  end.

(** [go syncConnect(ctx, *c, dialer, addr)]: the client is copied. *)
Definition spawn (i : nat) (x : Client.t) (d : option ContextDialer) (addr : string) : Attempt :=
  {| clt := x; adialer := d; aaddr := addr; acred := i; aclaim := None; apc := PDial |}.

(** The body of [for _, creds := range c.c.Credentials], for the credentials
    at index [i]: the client with the configs written to it, and either the
    error the body is about to send on [errChan] or the goroutines it
    starts. *)
Definition rangeBody (i : nat) (x : Client.t) (creds : Credentials.t)
    : Client.t * (error + list Attempt) :=
  let '(tls, err) := Credentials.TLSConfig creds in
  let x1 := Client.with_tlsConfig tls x in
  match traceWrap err with
  | Some e => (x1, inl e)
  | None =>
      let '(ssh, err) := Credentials.SSHConfig creds in
      let x2 := Client.with_sshConfig ssh x1 in
      match traceWrap err with
      | Some e => (x2, inl e)
      | None =>
          let cfg := Client.c x2 in
          match Credentials.Dialer creds with
          | (d, None) => (x2, inr [spawn i x2 d APIDomain])
          | (_, Some _) =>
              match Config.Dialer cfg with
              | Some d => (x2, inr [spawn i x2 (Some d) APIDomain])
              | None =>
                  let direct :=
                    map (fun addr =>
                           spawn i x2 (Some (NewDialer (Config.KeepAlivePeriod cfg)
                                                       (Config.DialTimeout cfg))) addr)
                        (Config.Addrs cfg) in
                  let tunnel :=
                    match Client.sshConfig x2 with
                    | Some ssh =>
                        map (fun addr =>
                               spawn i x2 (Some (NewTunnelDialer ssh (Config.KeepAlivePeriod cfg)
                                                                 (Config.DialTimeout cfg))) addr)
                            (Config.Addrs cfg)
                    | None => []
                    end in
                  (x2, inr (direct ++ tunnel))
              end
          end
      end
  end.

(** The error returned when [dialContext] ends first. *)
Definition timeoutError (es : list error) : error :=
  let err := match traceNewAggregate es with
             | Some e => e
             | None => DeadlineExceeded
             end in
  traceWrapMsg err "all auth methods failed".

(** Who moves, with the answer of the outside world. *)
Inductive action :=
| Main
| SelectClient (g : nat)
| SelectClosed
| SelectErr (g : nat)
| SelectDone
| DialReturns (g : nat) (err : option error)
| PingReturns (g : nat) (resp : PingResponse) (err : option error)
| Local (g : nat)
| Tick (dt : Duration).

(** The next statement of the calling goroutine outside [select].  Only this
    goroutine assigns [c], and only when it leaves, so inside the loop [c] is
    the client the method was called on. *)
Definition mainStep (s : State) : option State :=
  match mainpc s with
  | MRange i =>
      match Config.Credentials (Client.c (client s)) !! i with
      | None => Some (set_mainpc MSelect s)
      | Some creds =>
          match rangeBody i (client s) creds with
          | (x, inl e) => Some (set_mainpc (MSendErr i e) (set_client x s))
          | (x, inr started) =>
              Some (set_mainpc (MRange (S i)) (set_pool (pool s ++ started) (set_client x s)))
          end
      end
  | MSendErr i e =>
      match sendErr e s with
      | Some s' => Some (set_mainpc (MRange (S i)) s')
      | None => None
      end
  | MSelect => None
  | MReturned _ => None
  end.

(** [grpc.DialContext] returns to attempt [g]. *)
Definition dialStep (g : nat) (a : Attempt) (answer : option error) (s : State) : option State :=
  match apc a with
  | PDial =>
      match getClientConn g (clt a) (adialer a) (aaddr a) answer (conns s) with
      | (Ok conn, cs) => Some (upd_attempt g (at_pc (PPing conn)) (set_conns cs s))
      | (Fail e, cs) => Some (upd_attempt g (at_pc (PSendErr e)) (set_conns cs s))
      end
  | PTunnelDial conn tunnelDialer =>
      match getClientConn g (clt a) (Some tunnelDialer) "localhost:3024" answer (conns s) with
      | (Ok conn', cs) => Some (upd_attempt g (at_pc (PTunnelPing conn conn')) (set_conns cs s))
      | (Fail e, cs) => Some (upd_attempt g (at_pc (PSendErr e)) (set_conns cs s))
      end
  | _ => None
  end.

(** The guard of the tunnel branch: the dialer built there, if the branch is
    taken. *)
Definition tunnelBranch (x : Client.t) (resp : PingResponse) : option ContextDialer :=
  if negb (String.eqb (PublicTunnelAddr resp) "") then
    match Client.sshConfig x with
    | Some ssh =>
        Some (NewTunnelDialer ssh (Config.KeepAlivePeriod (Client.c x))
                              (Config.DialTimeout (Client.c x)))
    | None => None
    end
  else None.

(** [service.Ping] returns to attempt [g]. *)
Definition pingStep (g : nat) (a : Attempt) (resp : PingResponse) (err : option error)
    (s : State) : option State :=
  match apc a with
  | PPing conn =>
      match traceWrap err with
      | Some e => Some (upd_attempt g (at_pc (PSendErr e)) s)
      | None =>
          match tunnelBranch (clt a) resp with
          | Some tunnelDialer => Some (upd_attempt g (at_pc (PTunnelDial conn tunnelDialer)) s)
          | None => Some (upd_attempt g (at_pc (PSetOpen conn (NewAuthServiceClient conn))) s)
          end
      end
  | PTunnelPing conn conn' =>
      match traceWrap err with
      | Some e => Some (upd_attempt g (at_pc (PSendErr e)) s)
      | None => Some (upd_attempt g (at_pc (PSetOpen conn (NewAuthServiceClient conn'))) s)
      end
  | _ => None
  end.

(** A statement of attempt [g] that needs nobody else: the compare-and-swap
    on the client [c] points to, the three assignments through [c] that
    follow a true answer, and [close(clientChan)].  A method call or an
    assignment through a [c] that points nowhere panics.  A send on
    [clientChan] moves alone only when the channel is closed: it panics, and
    so does closing a closed channel. *)
Definition localStep (g : nat) (a : Attempt) (s : State) : option State :=
  match apc a with
  | PSetOpen conn service =>
      match derefC s with
      | Some x =>
          let '(won, x') := setOpen x in
          Some (upd_attempt g
                  (if won then claimed_at (cvar s) (PInstall conn service)
                   else at_pc (PReturned Lost))
                  (writeC x' s))
      | None => Some (set_panicked true s)
      end
  | PInstall conn service =>
      match derefC s with
      | Some x =>
          let x' := Client.with_grpc (Some service)
                      (Client.with_conn (Some conn)
                         (Client.with_dialer (adialer a) x)) in
          Some (upd_attempt g (at_pc PSendClient) (writeC x' s))
      | None => Some (set_panicked true s)
      end
  | PSendClient =>
      if clientChanClosed s then Some (set_panicked true s) else None
  | PCloseChan =>
      if clientChanClosed s then Some (set_panicked true s)
      else Some (upd_attempt g (at_pc (PReturned Won)) (set_clientChanClosed true s))
  | _ => None
  end.

Definition withAttempt (g : nat) (s : State) (k : Attempt -> option State) : option State :=
  match pool s !! g with
  | Some a => k a
  | None => None
  end.

(** The cases of [select] in the collecting loop. *)
Definition selectStep (act : action) (s : State) : option State :=
  match mainpc s with
  | MSelect =>
      match act with
      | SelectClient g =>
          withAttempt g s (fun a =>
            match apc a with
            | PSendClient =>
                if clientChanClosed s then None
                else Some (upd_attempt g (at_pc PCloseChan)
                             (set_mainpc (MReturned None) (set_cvar (CopyOf g) s)))
            | _ => None
            end)
      | SelectClosed =>
          if clientChanClosed s
          then Some (set_mainpc (MReturned None) (set_cvar NilClient s))
          else None
      | SelectErr g =>
          withAttempt g s (fun a =>
            match apc a with
            | PSendErr e =>
                match sendErr e s with
                | Some s' => Some (upd_attempt g (at_pc (PReturned (Failed e))) s')
                | None => None
                end
            | _ => None
            end)
      | SelectDone =>
          if dialContextDone s
          then Some (set_mainpc (MReturned (Some (timeoutError (errs s)))) s)
          else None
      | _ => None
      end
  | _ => None
  end.

(** One step of the system; [None] when the action is not enabled.  After a
    panic the program is gone. *)
Definition step (act : action) (s : State) : option State :=
  if panicked s then None
  else
    match act with
    | Main => mainStep s
    | SelectClient _ | SelectClosed | SelectErr _ | SelectDone => selectStep act s
    | DialReturns g err => withAttempt g s (fun a => dialStep g a err s)
    | PingReturns g resp err => withAttempt g s (fun a => pingStep g a resp err s)
    | Local g => withAttempt g s (fun a => localStep g a s)
    | Tick dt => if 0 <=? dt then Some (set_now (now s + dt) s) else None
    end.

(** A schedule run strictly: every action has to be enabled. *)
Fixpoint exec (sched : list action) (s : State) : option State :=
  match sched with
  | [] => Some s
  | act :: sched' =>
      match step act s with
      | Some s' => exec sched' s'
      | None => None
      end
  end.

(** A schedule run leniently: an action that is not enabled is skipped.  Every
    state that some strict run reaches is reached by the same schedule run
    leniently. *)
Fixpoint run (sched : list action) (s : State) : State :=
  match sched with
  | [] => s
  | act :: sched' =>
      match step act s with
      | Some s' => run sched' s'
      | None => run sched' s
      end
  end.

(** ** setClientConn *)

(** [func (c *Client) setClientConn(ctx, dialer, addr) error], run by one
    goroutine on client [x]: [dial1], [ping1], [dial2], [ping2] are the
    answers of the outside world to the calls in the order they are made.
    The result is the returned error, the client and the table afterwards. *)
Definition setClientConn (x : Client.t) (d : option ContextDialer) (addr : string)
    (dial1 : option error) (ping1 : PingResponse * option error)
    (dial2 : option error) (ping2 : PingResponse * option error)
    (cs : list ClientConn) : option error * Client.t * list ClientConn :=
  match getClientConn O x d addr dial1 cs with
  | (Fail e, cs1) => (traceWrap (Some e), x, cs1)
  | (Ok conn, cs1) =>
      let service := NewAuthServiceClient conn in
      match ping1 with
      | (_, Some e) => (traceWrap (Some e), x, cs1)
      | (resp, None) =>
          let claim (service : AuthServiceClient) (cs2 : list ClientConn) :=
            let '(won, x1) := setOpen x in
            if won then
              (None,
               Client.with_grpc (Some service)
                 (Client.with_conn (Some conn) (Client.with_dialer d x1)),
               cs2)
            else (None, x1, cs2) in
          match tunnelBranch x resp with
          | Some tunnelDialer =>
              match getClientConn O x (Some tunnelDialer) addr dial2 cs1 with
              | (Fail e, cs2) => (traceWrap (Some e), x, cs2)
              | (Ok conn', cs2) =>
                  match ping2 with
                  | (_, Some e) => (traceWrap (Some e), x, cs2)
                  | (_, None) => claim (NewAuthServiceClient conn') cs2
                  end
              end
          | None => claim service cs1
          end
      end
  end.

(** ** Predicates used in the statements *)

(** Among concurrent callers of [Close], everyone but [w] is still before its
    compare-and-swap or has returned nil without winning. *)
Definition othersIdle (w : nat) (s : CloseState) : Prop :=
  forall t p, t <> w -> callers s !! t = Some p ->
    p = CStart \/ p = CDone false (Returns None).

(** The three phases concurrent callers of [Close] go through on an open
    client whose connection is [h], recorded as [k] in the table [cs0]. *)
Inductive closePhase (x0 : Client.t) (cs0 : list ClientConn) (h : grpc_ClientConn)
    (k : ClientConn) (closeErr : grpc_ClientConn -> option error) (s : CloseState) : Prop :=
| BeforeClaim :
    cclient s = x0 -> cconns s = cs0 ->
    (forall t p, callers s !! t = Some p -> p = CStart) ->
    closePhase x0 cs0 h k closeErr s
| Claimed w :
    cclient s = Client.with_atomicFlag closedFlag x0 -> cconns s = cs0 ->
    callers s !! w = Some CWon -> othersIdle w s ->
    closePhase x0 cs0 h k closeErr s
| Released w :
    cclient s = Client.with_conn None (Client.with_atomicFlag closedFlag x0) ->
    cconns s = <[h := release k]> cs0 ->
    callers s !! w = Some (CDone true (Returns (closeErr h))) -> othersIdle w s ->
    closePhase x0 cs0 h k closeErr s.

(** ** Concrete inputs *)

Definition exampleCredentials : Credentials.t :=
  {| Credentials.TLSConfig := (Some (TLS "identity"), None);
     Credentials.SSHConfig := (Some (SSH "identity"), None);
     Credentials.Dialer := (None, Some (ExtErr "no dialer")) |}.

Definition exampleConfig : Config.t :=
  {| Config.Addrs := ["proxy.example.com:443"; "auth.example.com:3025"];
     Config.Dialer := None;
     Config.DialTimeout := 30 * time_Second;
     Config.KeepAlivePeriod := 60 * time_Second;
     Config.KeepAliveCount := 3;
     Config.Credentials := [exampleCredentials];
     Config.WithoutDialBlock := false |}.

(** A connection opened by attempt 0 and never released, the table holding
    it, what releasing it answers, and an open client that owns it. *)
Definition exampleConn : ClientConn :=
  {| connDialer := Some (NewDialer (60 * time_Second) (30 * time_Second));
     connTarget := "auth.example.com:3025"; connTLS := Some (TLS "identity");
     connOpenedBy := O; connReleased := O |}.

Definition exampleTable : list ClientConn := [exampleConn].

Definition exampleCloseErr (h : grpc_ClientConn) : option error :=
  Some (ExtErr "conn closing").

Definition exampleOpenClient : Client.t :=
  Client.with_grpc (Some (NewAuthServiceClient O))
    (Client.with_conn (Some O)
       (Client.with_dialer (Some (NewDialer (60 * time_Second) (30 * time_Second)))
          (snd (setOpen (newClient exampleConfig))))).

(** ** Invariants of the race *)

(** Connection [h] was created by attempt [g]. *)
Definition openedBy (s : State) (g : nat) (h : grpc_ClientConn) : Prop :=
  exists k, conns s !! h = Some k /\ connOpenedBy k = g.

(** The handles live at a program point of attempt [g] were created by [g]. *)
Definition handlesOk (s : State) (g : nat) (p : attemptPC) : Prop :=
  match p with
  | PPing conn | PTunnelDial conn _ => openedBy s g conn
  | PTunnelPing conn conn' => openedBy s g conn /\ openedBy s g conn'
  | PSetOpen conn service | PInstall conn service =>
      openedBy s g conn /\
      exists conn', service = NewAuthServiceClient conn' /\ openedBy s g conn'
  | _ => True
  end.

(** Program points of [syncConnect] before the answer of [c.setOpen()]. *)
Definition preClaim (p : attemptPC) : bool :=
  match p with
  | PDial | PPing _ | PTunnelDial _ _ | PTunnelPing _ _ | PSetOpen _ _ => true
  | _ => false
  end.

(** The attempt's [c.setOpen()] answered true on the client
    [connectWithAuth] was called on. *)
Definition claimedTheClient (a : Attempt) : Prop := aclaim a = Some TheClient.

(** The fields [dialer], [conn] and [grpc] of the client are as [New] left
    them, or they hold the dialer and handles of an attempt that won the
    claim on the client. *)
Definition installed (s : State) : Prop :=
  (Client.dialer (client s) = None /\ Client.conn (client s) = None
   /\ Client.grpc (client s) = None)
  \/ exists g a conn conn',
       pool s !! g = Some a /\ claimedTheClient a
       /\ Client.dialer (client s) = adialer a
       /\ Client.conn (client s) = Some conn
       /\ Client.grpc (client s) = Some (NewAuthServiceClient conn')
       /\ openedBy s g conn /\ openedBy s g conn'.

Record RaceInv (s : State) : Prop := {
  inv_running :
    mainpc s <> MReturned None ->
    cvar s = TheClient /\ clientChanClosed s = false /\ panicked s = false;
  inv_winner_seen :
    forall g a, pool s !! g = Some a ->
      apc a = PCloseChan \/ apc a = PReturned Won -> mainpc s = MReturned None;
  inv_flag :
    Client.atomicFlag (client s) = unsetFlag \/ Client.atomicFlag (client s) = openFlag;
  inv_unset :
    Client.atomicFlag (client s) = unsetFlag ->
    forall g a, pool s !! g = Some a -> aclaim a <> Some TheClient;
  inv_unique :
    forall g1 g2 a1 a2, pool s !! g1 = Some a1 -> pool s !! g2 = Some a2 ->
      claimedTheClient a1 -> claimedTheClient a2 -> g1 = g2;
  inv_install :
    forall g a conn service, pool s !! g = Some a ->
      apc a = PInstall conn service -> aclaim a = Some (cvar s);
  inv_claims :
    cvar s = TheClient ->
    forall g a, pool s !! g = Some a -> aclaim a = None \/ aclaim a = Some TheClient;
  inv_sender :
    forall g a, pool s !! g = Some a -> apc a = PSendClient -> aclaim a <> None;
  inv_preclaim :
    forall g a, pool s !! g = Some a -> preClaim (apc a) = true -> aclaim a = None;
  inv_handles :
    forall g a, pool s !! g = Some a -> handlesOk s g (apc a);
  inv_installed : installed s;
  inv_unreleased :
    forall h k, conns s !! h = Some k -> connReleased k = O
}.

(** The error an attempt has handed over on [errChan], if it has. *)
Definition failedErr (a : Attempt) : option error :=
  match apc a with
  | PReturned (Failed e) => Some e
  | _ => None
  end.

(** The errors handed over by the attempts, in the order the attempts were
    started. *)
Definition reported (s : State) : list error := omap failedErr (pool s).

(** A Ping answer without a tunnel address, and one that advertises one. *)
Definition plainPing : PingResponse := {| PublicTunnelAddr := "" |}.
Definition proxyPing : PingResponse := {| PublicTunnelAddr := "tunnel.example.com:3024" |}.

(** Two direct attempts both reach the server; attempt 0 wins the claim,
    attempt 1 loses it and returns; the caller takes the client. *)
Definition loserSchedule : list action :=
  [Main; Main;
   DialReturns 0 None; DialReturns 1 None;
   PingReturns 0 plainPing None; PingReturns 1 plainPing None;
   Local 0; Local 1; Local 0; SelectClient 0; Local 0].

(** One credential set whose TLS config cannot be resolved. *)
Definition brokenCredentials : Credentials.t :=
  {| Credentials.TLSConfig := (None, Some (ExtErr "no TLS config"));
     Credentials.SSHConfig := (None, None);
     Credentials.Dialer := (None, Some (ExtErr "no dialer")) |}.

Definition brokenConfig : Config.t :=
  {| Config.Addrs := ["auth.example.com:3025"];
     Config.Dialer := None;
     Config.DialTimeout := 30 * time_Second;
     Config.KeepAlivePeriod := 60 * time_Second;
     Config.KeepAliveCount := 3;
     Config.Credentials := [brokenCredentials];
     Config.WithoutDialBlock := false |}.

(** The caller stands where the broken credentials leave it: before the
    first iteration of the loop or in the send of its error. *)
Definition blockedOnFirst (s : State) : Prop :=
  (mainpc s = MRange 0 /\ client s = newClient brokenConfig
   \/ mainpc s = MSendErr 0 (ExtErr "no TLS config"))
  /\ pool s = [] /\ errs s = [].

(** Nothing is tried for a second; then the caller takes the timeout case. *)
Definition idleSchedule : list action :=
  [Main; Main; Tick time_Second; SelectDone].

(** An error is returned only through the timeout case of [select]. *)
Definition errorReturn (s : State) : Prop :=
  forall err, mainpc s = MReturned (Some err) ->
    deadline s <= now s /\ err = timeoutError (errs s).

(** One attempt fails and hands its error over; the others are still dialing
    when the deadline passes and the caller takes the timeout case. *)
Definition partialFailureSchedule : list action :=
  [Main; Main;
   DialReturns 0 (Some (ExtErr "connection refused")); SelectErr 0;
   Tick time_Second; SelectDone].

(** Attempt 0 dials the proxy directly, is told of a tunnel address, dials
    again through the tunnel dialer, wins the claim and hands over its
    client. *)
Definition tunnelSchedule : list action :=
  [Main; Main;
   DialReturns 0 None; PingReturns 0 proxyPing None;
   DialReturns 0 None; PingReturns 0 plainPing None;
   Local 0; Local 0; SelectClient 0].

(** The client [setClientConn] is called on in the example: the configs of
    the example credentials are resolved, nothing is connected. *)
Definition resolvedClient : Client.t :=
  Client.with_sshConfig (Some (SSH "identity"))
    (Client.with_tlsConfig (Some (TLS "identity")) (newClient exampleConfig)).

(** ** The enumeration of attempts, in the words of its description *)

(** The attempts to make for one resolved credential set, as dialer and
    address: one with the dialer of the credentials against the fixed domain;
    else one with the dialer of the configuration against the same domain;
    else a direct attempt per address, followed by a tunnel attempt per
    address when the credentials carry an SSH config. *)
Definition enumeratedAttempts (cfg : Config.t) (cr : Credentials.t)
    : list (option ContextDialer * string) :=
  match Credentials.Dialer cr with
  | (d, None) => [(d, APIDomain)]
  | (_, Some _) =>
      match Config.Dialer cfg with
      | Some d => [(Some d, APIDomain)]
      | None =>
          ((fun addr => (Some (NewDialer (Config.KeepAlivePeriod cfg) (Config.DialTimeout cfg)),
                         addr)) <$> Config.Addrs cfg)
          ++ match fst (Credentials.SSHConfig cr) with
             | Some ssh =>
                 (fun addr => (Some (NewTunnelDialer ssh (Config.KeepAlivePeriod cfg)
                                                     (Config.DialTimeout cfg)), addr))
                   <$> Config.Addrs cfg
             | None => []
             end
      end
  end.

(** Both configs of the credential set resolve without an error. *)
Definition resolves (cr : Credentials.t) : Prop :=
  snd (Credentials.TLSConfig cr) = None /\ snd (Credentials.SSHConfig cr) = None.

(** The attempts started for the credentials at index [i], in the order they
    were started, as dialer and address. *)
Definition launchedFor (i : nat) (l : list Attempt) : list (option ContextDialer * string) :=
  (fun a => (adialer a, aaddr a)) <$> filter (fun a => acred a = i) l.

(** The loop over the credentials has finished the iteration at index [i]. *)
Definition loopPassed (i : nat) (p : mainPC) : Prop :=
  match p with
  | MRange j | MSendErr j _ => (i < j)%nat
  | MSelect | MReturned _ => True
  end.

Record LoopInv (cfg : Config.t) (s : State) : Prop := {
  loop_config : Client.c (client s) = cfg;
  loop_started :
    forall g a, pool s !! g = Some a -> loopPassed (acred a) (mainpc s);
  loop_passed :
    forall i cr, Config.Credentials cfg !! i = Some cr -> loopPassed i (mainpc s) ->
      resolves cr /\ launchedFor i (pool s) = enumeratedAttempts cfg cr
}.

(** ** Configuration defaults and the HTTP dialer *)

(** The constants of package [defaults] that [CheckAndSetDefaults] reads;
    they are declared outside the sources at hand. *)
Record Defaults := {
  ServerKeepAliveTTL : Duration;
  KeepAliveCountMax : Z;
  DefaultDialTimeout : Duration
}.

(** [trace.BadParameter(msg)], kept by its message. *)
Definition traceBadParameter (msg : string) : error := ExtErr msg.

Definition set_KeepAlivePeriod (v : Duration) (cfg : Config.t) : Config.t :=
  {| Config.Addrs := Config.Addrs cfg; Config.Dialer := Config.Dialer cfg;
     Config.DialTimeout := Config.DialTimeout cfg; Config.KeepAlivePeriod := v;
     Config.KeepAliveCount := Config.KeepAliveCount cfg;
     Config.Credentials := Config.Credentials cfg;
     Config.WithoutDialBlock := Config.WithoutDialBlock cfg |}.
Definition set_KeepAliveCount (v : Z) (cfg : Config.t) : Config.t :=
  {| Config.Addrs := Config.Addrs cfg; Config.Dialer := Config.Dialer cfg;
     Config.DialTimeout := Config.DialTimeout cfg;
     Config.KeepAlivePeriod := Config.KeepAlivePeriod cfg;
     Config.KeepAliveCount := v;
     Config.Credentials := Config.Credentials cfg;
     Config.WithoutDialBlock := Config.WithoutDialBlock cfg |}.
Definition set_DialTimeout (v : Duration) (cfg : Config.t) : Config.t :=
  {| Config.Addrs := Config.Addrs cfg; Config.Dialer := Config.Dialer cfg;
     Config.DialTimeout := v; Config.KeepAlivePeriod := Config.KeepAlivePeriod cfg;
     Config.KeepAliveCount := Config.KeepAliveCount cfg;
     Config.Credentials := Config.Credentials cfg;
     Config.WithoutDialBlock := Config.WithoutDialBlock cfg |}.
Definition set_Dialer (v : option ContextDialer) (cfg : Config.t) : Config.t :=
  {| Config.Addrs := Config.Addrs cfg; Config.Dialer := v;
     Config.DialTimeout := Config.DialTimeout cfg;
     Config.KeepAlivePeriod := Config.KeepAlivePeriod cfg;
     Config.KeepAliveCount := Config.KeepAliveCount cfg;
     Config.Credentials := Config.Credentials cfg;
     Config.WithoutDialBlock := Config.WithoutDialBlock cfg |}.

(** [func (c *Config) CheckAndSetDefaults() error]: the returned error and the
    configuration afterwards. *)
Definition CheckAndSetDefaults (dflt : Defaults) (cfg : Config.t) : option error * Config.t :=
  if Nat.eqb (length (Config.Credentials cfg)) 0 then
    (Some (traceBadParameter "missing connection credentials"), cfg)
  else
    let c1 := if Config.KeepAlivePeriod cfg =? 0
              then set_KeepAlivePeriod (ServerKeepAliveTTL dflt) cfg else cfg in
    let c2 := if Config.KeepAliveCount c1 =? 0
              then set_KeepAliveCount (KeepAliveCountMax dflt) c1 else c1 in
    let c3 := if Config.DialTimeout c2 =? 0
              then set_DialTimeout (DefaultDialTimeout dflt) c2 else c2 in
    (None, c3).

(** [New(ctx, cfg)] up to the start of the race: the
    error of the check, or the state in which [connectWithAuth] starts on
    [&Client{c: cfg}]. *)
Definition New (dflt : Defaults) (cfg : Config.t) : error + State :=
  match CheckAndSetDefaults dflt cfg with
  | (Some e, _) => inl e
  | (None, cfg') => inr (initState cfg')
  end.

(** What [New] returns once [connectWithAuth] has returned: the client it
    was called on with a nil error, or no client with the error. *)
Definition NewReturns (s : State) : option (option Client.t * option error) :=
  match mainpc s with
  | MReturned None => Some (Some (client s), None)
  | MReturned (Some e) => Some (None, traceWrap (Some e))
  | _ => None
  end.

(** [func (c *Config) GetHTTPDialer() (ContextDialer, error)].
    [newAddrsDialer] stands for [NewAddrsDialer], declared outside the
    sources at hand; [calls] counts how often it has been called.  The result
    is the returned pair, the configuration afterwards and the count. *)
Definition GetHTTPDialer
    (newAddrsDialer : list string -> Duration -> Duration
                      -> option ContextDialer * option error)
    (cfg : Config.t) (calls : nat)
    : (option ContextDialer * option error) * Config.t * nat :=
  match Config.Dialer cfg with
  | Some d => ((Some d, None), cfg, calls)
  | None =>
      let '(d, err) := newAddrsDialer (Config.Addrs cfg) (Config.KeepAlivePeriod cfg)
                                      (Config.DialTimeout cfg) in
      let cfg' := set_Dialer d cfg in
      match traceWrap err with
      | Some e => ((None, Some e), cfg', S calls)
      | None => ((Config.Dialer cfg', None), cfg', S calls)
      end
  end.

Definition exampleDefaults : Defaults :=
  {| ServerKeepAliveTTL := 60 * time_Second; KeepAliveCountMax := 3;
     DefaultDialTimeout := 30 * time_Second |}.

(** A configuration that leaves the three defaulted fields at zero. *)
Definition bareConfig : Config.t :=
  {| Config.Addrs := ["auth.example.com:3025"];
     Config.Dialer := None;
     Config.DialTimeout := 0;
     Config.KeepAlivePeriod := 0;
     Config.KeepAliveCount := 0;
     Config.Credentials := [exampleCredentials];
     Config.WithoutDialBlock := false |}.

(** A [NewAddrsDialer] that always succeeds with a dialer over the
    addresses. *)
Definition exampleAddrsDialer (addrs : list string) (kp dt : Duration)
    : option ContextDialer * option error :=
  (Some (CustomDialer "addrs"), None).

(** What the race keeps true about the attempt that won the claim on the
    client: the client is open; once the attempt is past its three
    assignments the client has a connection; and when the caller has
    returned nil it holds the copy of that attempt, which is past its send. *)
Record WinInv (s : State) : Prop := {
  win_flag :
    forall g a, pool s !! g = Some a -> claimedTheClient a ->
      Client.atomicFlag (client s) = openFlag;
  win_installed :
    forall g a, pool s !! g = Some a -> claimedTheClient a ->
      (forall conn service, apc a <> PInstall conn service) ->
      Client.conn (client s) <> None;
  win_returned :
    mainpc s = MReturned None ->
    exists g a, cvar s = CopyOf g /\ pool s !! g = Some a /\ claimedTheClient a
                /\ (apc a = PCloseChan \/ apc a = PReturned Won)
}.


(** ** Accessors *)

(** [func (c *Client) Config() *tls.Config]. *)
Definition Client_Config (x : Client.t) : option tls_Config := Client.tlsConfig x.

(** [func (c *Client) Dialer() ContextDialer]. *)
Definition Client_Dialer (x : Client.t) : option ContextDialer := Client.dialer x.

(** [func (c *Client) GetConnection() *grpc.ClientConn]. *)
Definition Client_GetConnection (x : Client.t) : option grpc_ClientConn := Client.conn x.

(** The configs on the client are those of the credential set the loop
    handled last. *)
Definition configsOf (cr : Credentials.t) (x : Client.t) : Prop :=
  Client.tlsConfig x = fst (Credentials.TLSConfig cr)
  /\ Client.sshConfig x = fst (Credentials.SSHConfig cr).

Definition ConfigsInv (cfg : Config.t) (s : State) : Prop :=
  Client.c (client s) = cfg /\
  match mainpc s with
  | MRange O => True
  | MRange (S j) =>
      exists cr, Config.Credentials cfg !! j = Some cr /\ configsOf cr (client s)
  | MSendErr _ _ => True
  | MSelect | MReturned _ =>
      forall cr, last (Config.Credentials cfg) = Some cr -> configsOf cr (client s)
  end.

(** Two credential sets with different TLS configs, one address. *)
Definition firstCredentials : Credentials.t :=
  {| Credentials.TLSConfig := (Some (TLS "first"), None);
     Credentials.SSHConfig := (None, None);
     Credentials.Dialer := (None, Some (ExtErr "no dialer")) |}.
Definition secondCredentials : Credentials.t :=
  {| Credentials.TLSConfig := (Some (TLS "second"), None);
     Credentials.SSHConfig := (None, None);
     Credentials.Dialer := (None, Some (ExtErr "no dialer")) |}.
Definition twoCredentialsConfig : Config.t :=
  {| Config.Addrs := ["auth.example.com:3025"];
     Config.Dialer := None;
     Config.DialTimeout := 30 * time_Second;
     Config.KeepAlivePeriod := 60 * time_Second;
     Config.KeepAliveCount := 3;
     Config.Credentials := [firstCredentials; secondCredentials];
     Config.WithoutDialBlock := false |}.

(** The attempt of the first credential set wins. *)
Definition firstWinsSchedule : list action :=
  [Main; Main; Main;
   DialReturns 0 None; PingReturns 0 plainPing None;
   Local 0; Local 0; SelectClient 0].

(** ** The copies of the client *)

(** Every attempt works on a copy of the client that carries the
    configuration and the configs of its own credential set. *)
Definition CopyInv (cfg : Config.t) (s : State) : Prop :=
  Client.c (client s) = cfg /\
  forall g a, pool s !! g = Some a ->
    exists cr, Config.Credentials cfg !! acred a = Some cr
               /\ Client.c (clt a) = cfg /\ configsOf cr (clt a).

(** Every connection was created by an attempt of the pool, with the TLS
    config of that attempt's credential set. *)
Definition ConnInv (cfg : Config.t) (s : State) : Prop :=
  forall h k, conns s !! h = Some k ->
    exists a cr, pool s !! connOpenedBy k = Some a
                 /\ Config.Credentials cfg !! acred a = Some cr
                 /\ connTLS k = fst (Credentials.TLSConfig cr).

(** Program points an attempt without an SSH config can be at: never in the
    tunnel branch, and with its service handle over its first connection. *)
Definition noTunnel (p : attemptPC) : Prop :=
  match p with
  | PTunnelDial _ _ | PTunnelPing _ _ => False
  | PSetOpen conn service | PInstall conn service => service = NewAuthServiceClient conn
  | _ => True
  end.

Definition NoTunnelInv (s : State) : Prop :=
  forall g a, pool s !! g = Some a -> Client.sshConfig (clt a) = None -> noTunnel (apc a).

(** The attempt of the first credential set, which has no SSH config, is
    told of a tunnel address. *)
Definition advertisedWithoutSshSchedule : list action :=
  [Main; Main; Main; DialReturns 0 None; PingReturns 0 proxyPing None].

(** A history contains a [setOpen] followed, later, by a [setClosed]. *)
Definition openedThenClosed (ops : list flagOp) : Prop :=
  exists l1 l2 l3, ops = l1 ++ OpSetOpen :: l2 ++ OpSetClosed :: l3.

(** ** The wrapper of a connection made in the race *)

(** What the function returned by [c.grpcDialer(dialer)] hands back when its
    client is not closed: the connection of the underlying dialer, or a
    connection problem that carries the dialer's error. *)
Definition dialThrough
    (answer : ContextDialer -> string -> string -> option net_Conn * option error)
    (errText : error -> string) (d : ContextDialer) (addr : string)
    : option net_Conn * option error :=
  match answer d "tcp" addr with
  | (_, Some e) => (None, Some (ConnectionProblem (Some e) (errText e)))
  | (conn, None) => (conn, None)
  end.

(** How a call of the function returned by [c.grpcDialer(dialer)] ends: it
    returns a pair and leaves the log of the calls made on the underlying
    dialer, or it panics. *)
Inductive wrapperOutcome :=
| WrapperReturns (r : option net_Conn * option error) (log : list DialCall)
| WrapperPanics.

(** The function that [getClientConn] gave to gRPC as the dialer of
    connection [h], called with [addr] in state [s].  In [syncConnect] the
    receiver of [clt.getClientConn] is the attempt's own copy [clt], so the
    [c] of [c.grpcDialer(dialer)] is that copy: the function reads the flag
    of the copy of the attempt that created the connection, as the flag is
    when the function is called.  On a client that is not closed it calls
    [dialer.DialContext], which panics when [dialer] is nil. *)
Definition connWrapper
    (answer : ContextDialer -> string -> string -> option net_Conn * option error)
    (errText : error -> string) (s : State) (h : grpc_ClientConn) (addr : string)
    (log : list DialCall) : option wrapperOutcome :=
  match conns s !! h with
  | None => None
  | Some k =>
      match pool s !! connOpenedBy k with
      | None => None
      | Some a =>
          match connDialer k with
          | Some d =>
              let '(r, log') := grpcDialer answer errText (clt a) d addr log in
              Some (WrapperReturns r log')
          | None =>
              if isClosed (clt a)
              then Some (WrapperReturns
                           (None, Some (ConnectionProblem None "client is closed")) log)
              else Some WrapperPanics
          end
      end
  end.

(** [Close()] called on the client that [New] returned, which is the client
    [connectWithAuth] was called on: the flag and the [conn] field of that
    client change, and the connection is released in the table.  The copies
    held by the attempts are other values and stay as they are. *)
Definition closeClient (closeErr : grpc_ClientConn -> option error) (s : State)
    : outcome * State :=
  let '(r, x, cs) := Close closeErr (client s) (conns s) in
  (r, set_conns cs (set_client x s)).

(** The flag of a client is unset or open. *)
Definition notClosed (x : Client.t) : Prop :=
  Client.atomicFlag x = unsetFlag \/ Client.atomicFlag x = openFlag.

(** During a race neither the client nor any copy of it is closed. *)
Definition FlagInv (s : State) : Prop :=
  notClosed (client s) /\ forall g a, pool s !! g = Some a -> notClosed (clt a).

(** The call of the wrapper's underlying dialer, as it is logged. *)
Definition tcpCall (d : ContextDialer) (addr : string) : DialCall :=
  {| callDialer := d; callNetwork := "tcp"; callAddr := addr |}.

(** An underlying dialer that always connects. *)
Definition exampleAnswer (d : ContextDialer) (network addr : string)
    : option net_Conn * option error :=
  (Some (NetConn 7), None).

(** [err.Error()] in the examples. *)
Definition exampleErrText (e : error) : string := "dial failed".

(** ** Credential sets behind one that does not resolve *)

(** The broken credential set first, the example credential set second. *)
Definition starvedConfig : Config.t :=
  {| Config.Addrs := ["proxy.example.com:443"; "auth.example.com:3025"];
     Config.Dialer := None;
     Config.DialTimeout := 30 * time_Second;
     Config.KeepAlivePeriod := 60 * time_Second;
     Config.KeepAliveCount := 3;
     Config.Credentials := [brokenCredentials; exampleCredentials];
     Config.WithoutDialBlock := false |}.

(** Everybody is given a turn, the clock passes the deadline, and everybody
    is given a turn again. *)
Definition starvedSchedule : list action :=
  [Main; Main; Main; DialReturns 0 None; Tick time_Second; SelectDone; SelectErr 0;
   Main; DialReturns 0 None; Local 0].

(** ** Dialers that are not nil *)



(** * Properties *)

(** ** The lifecycle flag *)

Lemma setOpen_spec (x : Client.t) :
  setOpen x =
    if Client.atomicFlag x =? unsetFlag
    then (true, Client.with_atomicFlag openFlag x) else (false, x).
Proof. reflexivity. Qed.

Lemma setClosed_spec (x : Client.t) :
  setClosed x =
    if Client.atomicFlag x =? openFlag
    then (true, Client.with_atomicFlag closedFlag x) else (false, x).
Proof. reflexivity. Qed.

(** What one operation does to the flag, by the value it finds. *)
Lemma applyOp_flag (o : flagOp) (x : Client.t) :
  Client.atomicFlag (snd (applyOp o x)) = Client.atomicFlag x
  \/ (o = OpSetOpen /\ Client.atomicFlag x = unsetFlag
      /\ Client.atomicFlag (snd (applyOp o x)) = openFlag)
  \/ (o = OpSetClosed /\ Client.atomicFlag x = openFlag
      /\ Client.atomicFlag (snd (applyOp o x)) = closedFlag).
Proof.
  destruct o; cbn [applyOp]; rewrite ?setOpen_spec, ?setClosed_spec.
  - destruct (Z.eqb_spec (Client.atomicFlag x) unsetFlag); cbn; auto.
  - destruct (Z.eqb_spec (Client.atomicFlag x) openFlag); cbn; auto.
  - cbn; auto.
Qed.

(** A closed flag stays closed. *)
Lemma closed_is_final (ops : list flagOp) (x : Client.t) :
  Client.atomicFlag x = closedFlag ->
  Client.atomicFlag (applyOps ops x) = closedFlag.
Proof.
  revert x; induction ops as [|o ops IH]; intros x Hx; [exact Hx|].
  cbn [applyOps]. apply IH.
  destruct (applyOp_flag o x) as [H|[(_ & H & _)|(_ & H & _)]];
    rewrite ?Hx in H; try discriminate H. exact H.
Qed.

Lemma transitions_step (o : flagOp) (ops : list flagOp) (x : Client.t) :
  transitions (o :: ops) x =
    let x' := snd (applyOp o x) in
    if Client.atomicFlag x =? Client.atomicFlag x'
    then transitions ops x'
    else (o, Client.atomicFlag x, Client.atomicFlag x') :: transitions ops x'.
Proof. reflexivity. Qed.

(** From a flag that is neither unset nor open nothing changes any more. *)
Lemma transitions_settled (ops : list flagOp) (x : Client.t) :
  Client.atomicFlag x <> unsetFlag -> Client.atomicFlag x <> openFlag ->
  transitions ops x = [].
Proof.
  revert x; induction ops as [|o ops IH]; intros x H0 H1; [reflexivity|].
  rewrite transitions_step; cbn zeta.
  destruct (applyOp_flag o x) as [H|[(_ & H & _)|(_ & H & _)]];
    try contradiction.
  rewrite H, Z.eqb_refl. apply IH; rewrite H; assumption.
Qed.

(** From an open flag the only change left is the closing one, once. *)
Lemma transitions_open (ops : list flagOp) (x : Client.t) :
  Client.atomicFlag x = openFlag ->
  transitions ops x = [] \/ transitions ops x = [(OpSetClosed, openFlag, closedFlag)].
Proof.
  revert x; induction ops as [|o ops IH]; intros x Hx; [left; reflexivity|].
  rewrite transitions_step; cbn zeta.
  destruct (applyOp_flag o x) as [H|[(_ & H & _)|(-> & _ & H)]].
  - rewrite H, Z.eqb_refl. apply IH. rewrite H. exact Hx.
  - rewrite Hx in H. discriminate H.
  - rewrite H, Hx. change (openFlag =? closedFlag) with false. cbv iota.
    right. f_equal. apply transitions_settled; rewrite H; discriminate.
Qed.

(** From an unset flag: nothing, the opening change, or the opening change
    followed by the closing one. *)
Lemma transitions_unset (ops : list flagOp) (x : Client.t) :
  Client.atomicFlag x = unsetFlag ->
  transitions ops x = [] \/
  transitions ops x = [(OpSetOpen, unsetFlag, openFlag)] \/
  transitions ops x = [(OpSetOpen, unsetFlag, openFlag); (OpSetClosed, openFlag, closedFlag)].
Proof.
  revert x; induction ops as [|o ops IH]; intros x Hx; [left; reflexivity|].
  rewrite transitions_step; cbn zeta.
  destruct (applyOp_flag o x) as [H|[(-> & _ & H)|(_ & H & _)]].
  - rewrite H, Z.eqb_refl. apply IH. rewrite H. exact Hx.
  - rewrite H, Hx. change (unsetFlag =? openFlag) with false. cbv iota.
    right. destruct (transitions_open ops _ H) as [->| ->]; auto.
  - rewrite Hx in H. discriminate H.
Qed.

(** C3.  Over any history of [setOpen], [setClosed] and [isClosed] on a
    client, whatever value its flag starts from, the flag changes only from
    unset to open, made by the compare-and-swap of [setOpen], and from open to
    closed, made by the compare-and-swap of [setClosed]; no change occurs
    twice, and the opening change never follows the closing one. *)
Theorem lifecycle_flag_monotonic (ops : list flagOp) (x : Client.t) :
  (forall t, In t (transitions ops x) ->
     t = (OpSetOpen, unsetFlag, openFlag) \/ t = (OpSetClosed, openFlag, closedFlag))
  /\ NoDup (transitions ops x)
  /\ (forall pre post,
        transitions ops x = pre ++ (OpSetClosed, openFlag, closedFlag) :: post ->
        post = [])
  /\ setOpen x = compareAndSwapInt32 unsetFlag openFlag x
  /\ setClosed x = compareAndSwapInt32 openFlag closedFlag x.
Proof.
  assert (Hcases :
    transitions ops x = [] \/
    transitions ops x = [(OpSetOpen, unsetFlag, openFlag)] \/
    transitions ops x = [(OpSetClosed, openFlag, closedFlag)] \/
    transitions ops x = [(OpSetOpen, unsetFlag, openFlag); (OpSetClosed, openFlag, closedFlag)]).
  { destruct (Z.eq_dec (Client.atomicFlag x) unsetFlag) as [H0|H0].
    - destruct (transitions_unset ops x H0) as [->|[->| ->]]; auto.
    - destruct (Z.eq_dec (Client.atomicFlag x) openFlag) as [H1|H1].
      + destruct (transitions_open ops x H1) as [->| ->]; auto.
      + rewrite (transitions_settled ops x H0 H1); auto. }
  repeat split.
  - intros t Ht. destruct Hcases as [E|[E|[E|E]]]; rewrite E in Ht; cbn in Ht;
      intuition auto.
  - destruct Hcases as [E|[E|[E|E]]]; rewrite E;
      repeat (first [apply NoDup_nil_2 | apply NoDup_cons_2]);
      rewrite ?elem_of_cons, ?elem_of_nil; intuition discriminate.
  - intros pre post E.
    destruct Hcases as [E'|[E'|[E'|E']]]; rewrite E' in E;
      destruct pre as [|p1 [|p2 [|p3 pre]]]; cbn in E; try discriminate E;
      injection E; intros; subst; try reflexivity; try discriminate.
Qed.

(** ** Close *)

(** C10.  [Close] on a client whose flag is still unset returns nil, leaves
    the client (its flag and its connection field) and every connection of
    the table as they were, and [setOpen] on the client afterwards still
    answers true and opens it. *)
Theorem Close_while_unset (closeErr : grpc_ClientConn -> option error)
    (x : Client.t) (cs : list ClientConn) :
  Client.atomicFlag x = unsetFlag ->
  Close closeErr x cs = (Returns None, x, cs)
  /\ Client.atomicFlag (snd (fst (Close closeErr x cs))) = unsetFlag
  /\ setOpen (snd (fst (Close closeErr x cs))) = (true, Client.with_atomicFlag openFlag x)
  /\ isClosed (snd (fst (Close closeErr x cs))) = false.
Proof.
  intros Hx.
  assert (E : Close closeErr x cs = (Returns None, x, cs)).
  { unfold Close. rewrite setClosed_spec, Hx. reflexivity. }
  rewrite E. cbn [fst snd]. repeat split.
  - exact Hx.
  - rewrite setOpen_spec, Hx. reflexivity.
  - unfold isClosed, loadInt32. rewrite Hx. reflexivity.
Qed.

Lemma Close_while_unset_witness :
  Close (fun _ => None) (newClient exampleConfig) [] = (Returns None, newClient exampleConfig, [])
  /\ setOpen (newClient exampleConfig)
     = (true, Client.with_atomicFlag openFlag (newClient exampleConfig)).
Proof.
  destruct (Close_while_unset (fun _ => None) (newClient exampleConfig) [] eq_refl)
    as (H1 & _ & H2 & _).
  split; [exact H1|]. rewrite H1 in H2. exact H2.
Defined.

(** One caller of [Close] running alone through its two steps does what
    [Close] does. *)
Lemma closeStep_alone (closeErr : grpc_ClientConn -> option error)
    (x : Client.t) (cs : list ClientConn) :
  let s := closeRun closeErr [O; O] (closeInit x cs 1) in
  let '(r, x', cs') := Close closeErr x cs in
  cclient s = x' /\ cconns s = cs' /\ exists won, callers s = [CDone won r].
Proof.
  unfold Close, closeInit, closeRun, closeStep; cbn [callers cclient cconns replicate lookup].
  rewrite setClosed_spec.
  destruct (Client.atomicFlag x =? openFlag); cbn.
  - destruct (Client.conn x); cbn; eauto.
  - eauto.
Qed.

Section ConcurrentClose.
Variable closeErr : grpc_ClientConn -> option error.
Variables (x0 : Client.t) (cs0 : list ClientConn) (h : grpc_ClientConn) (k : ClientConn).
Hypothesis Hopen : Client.atomicFlag x0 = openFlag.
Hypothesis Hconn : Client.conn x0 = Some h.
Hypothesis Hk : cs0 !! h = Some k.

Lemma othersIdle_insert (w t : nat) (p : closePC) (s : CloseState) (x : Client.t)
    (cs : list ClientConn) :
  othersIdle w s -> (t = w \/ p = CDone false (Returns None)) ->
  othersIdle w {| cclient := x; cconns := cs; callers := <[t := p]> (callers s) |}.
Proof.
  intros Hid Hp t' p' Hne Hl. cbn [callers] in Hl.
  apply list_lookup_insert_Some in Hl as [(-> & -> & _)|(Hne' & Hl)].
  - destruct Hp as [->|Hp]; [contradiction|auto].
  - eauto.
Qed.

(** A step keeps the callers within the three phases. *)
Lemma closeStep_phase (t : nat) (s s' : CloseState) :
  closePhase x0 cs0 h k closeErr s ->
  closeStep closeErr t s = Some s' ->
  closePhase x0 cs0 h k closeErr s'.
Proof.
  intros Hph Hstep. unfold closeStep in Hstep.
  destruct (callers s !! t) as [[| |won r]|] eqn:Ht; try discriminate Hstep.
  - (* the compare-and-swap *)
    rewrite setClosed_spec in Hstep.
    destruct Hph as [Hc Hcs Hall|w Hc Hcs Hw Hid|w Hc Hcs Hw Hid].
    + rewrite Hc, Hopen in Hstep. cbn in Hstep. injection Hstep as <-.
      apply (Claimed _ _ _ _ _ _ t); cbn [cclient cconns callers]; auto.
      * apply list_lookup_insert_eq. eapply lookup_lt_Some; eauto.
      * intros t' p' Hne Hl. cbn [callers] in Hl.
        rewrite list_lookup_insert_ne in Hl by auto.
        left. eauto.
    + rewrite Hc in Hstep. cbn in Hstep. injection Hstep as <-.
      assert (t <> w) by (intros ->; rewrite Hw in Ht; discriminate).
      apply (Claimed _ _ _ _ _ _ w); cbn [cclient cconns callers]; auto.
      * rewrite list_lookup_insert_ne by auto. exact Hw.
      * apply othersIdle_insert; auto.
    + rewrite Hc in Hstep. cbn in Hstep. injection Hstep as <-.
      assert (t <> w) by (intros ->; rewrite Hw in Ht; discriminate).
      apply (Released _ _ _ _ _ _ w); cbn [cclient cconns callers]; auto.
      * rewrite list_lookup_insert_ne by auto. exact Hw.
      * apply othersIdle_insert; auto.
  - (* the release by the caller that won *)
    destruct Hph as [Hc Hcs Hall|w Hc Hcs Hw Hid|w Hc Hcs Hw Hid].
    + apply Hall in Ht. discriminate Ht.
    + assert (t = w) as ->.
      { destruct (decide (t = w)) as [|Hne]; [assumption|].
        destruct (Hid _ _ Hne Ht); discriminate. }
      rewrite Hc in Hstep. cbn in Hstep. rewrite Hconn in Hstep.
      unfold connClose in Hstep. rewrite Hcs, Hk in Hstep.
      injection Hstep as <-.
      apply (Released _ _ _ _ _ _ w); cbn [cclient cconns callers].
      * reflexivity.
      * reflexivity.
      * apply list_lookup_insert_eq. eapply lookup_lt_Some; eauto.
      * apply othersIdle_insert; auto.
    + assert (t <> w) as Hne by (intros ->; rewrite Hw in Ht; discriminate).
      destruct (Hid _ _ Hne Ht); discriminate.
Qed.

Lemma closeRun_phase (sched : list nat) (s : CloseState) :
  closePhase x0 cs0 h k closeErr s ->
  closePhase x0 cs0 h k closeErr (closeRun closeErr sched s).
Proof.
  revert s; induction sched as [|t sched IH]; intros s Hph; [exact Hph|].
  cbn [closeRun]. destruct (closeStep closeErr t s) as [s'|] eqn:E.
  - apply IH. eapply closeStep_phase; eauto.
  - apply IH. exact Hph.
Qed.

Lemma closeInit_phase (n : nat) : closePhase x0 cs0 h k closeErr (closeInit x0 cs0 n).
Proof.
  apply BeforeClaim; [reflexivity|reflexivity|].
  intros t p Hl. cbn [closeInit callers] in Hl.
  apply lookup_replicate in Hl. tauto.
Qed.

Lemma closeStep_length (t : nat) (s s' : CloseState) :
  closeStep closeErr t s = Some s' -> length (callers s') = length (callers s).
Proof.
  unfold closeStep. intros H.
  destruct (callers s !! t) as [[| |won r]|]; try discriminate H.
  - destruct (setClosed (cclient s)). injection H as <-. cbn. apply length_insert.
  - destruct (Client.conn (cclient s)).
    + destruct (connClose closeErr g (cconns s)). injection H as <-. cbn. apply length_insert.
    + injection H as <-. cbn. apply length_insert.
Qed.

Lemma closeRun_length (sched : list nat) (s : CloseState) :
  length (callers (closeRun closeErr sched s)) = length (callers s).
Proof.
  revert s; induction sched as [|t sched IH]; intros s; [reflexivity|].
  cbn [closeRun]. destruct (closeStep closeErr t s) as [s'|] eqn:E.
  - rewrite IH. eapply closeStep_length; eauto.
  - apply IH.
Qed.
End ConcurrentClose.

(** C7.  Any number of callers of [Close], interleaved in any way, on an open
    client whose connection is [h]: at most one caller wins the
    compare-and-swap; a caller that did not win returned nil; the caller that
    won returns what releasing [h] answered, and once it has returned [h] has
    been released exactly once; at every moment [h] has been released at most
    once and no other connection has been touched; and when all callers have
    returned (there being at least one), one of them is the winner. *)
Theorem Close_idempotent (closeErr : grpc_ClientConn -> option error)
    (x : Client.t) (cs : list ClientConn) (h : grpc_ClientConn) (k : ClientConn)
    (n : nat) (sched : list nat) :
  Client.atomicFlag x = openFlag ->
  Client.conn x = Some h ->
  cs !! h = Some k ->
  let s := closeRun closeErr sched (closeInit x cs n) in
  (forall t1 t2 p1 p2,
      callers s !! t1 = Some p1 -> callers s !! t2 = Some p2 ->
      callerWon p1 = true -> callerWon p2 = true -> t1 = t2)
  /\ (forall t r, callers s !! t = Some (CDone false r) -> r = Returns None)
  /\ (forall t r, callers s !! t = Some (CDone true r) ->
        r = Returns (closeErr h) /\ releasedCount (cconns s) h = S (connReleased k))
  /\ (releasedCount (cconns s) h = connReleased k
      \/ releasedCount (cconns s) h = S (connReleased k))
  /\ (forall h', h' <> h -> cconns s !! h' = cs !! h')
  /\ ((0 < n)%nat ->
      (forall t p, callers s !! t = Some p -> callerDone p = true) ->
      exists t, callers s !! t = Some (CDone true (Returns (closeErr h)))).
Proof.
  intros Hopen Hconn Hk s.
  assert (Hlen : length (callers s) = n).
  { unfold s. rewrite closeRun_length. cbn. apply length_replicate. }
  assert (Hrel : releasedCount (<[h := release k]> cs) h = S (connReleased k)).
  { unfold releasedCount. rewrite list_lookup_insert_eq; [reflexivity|].
    eapply lookup_lt_Some; eauto. }
  assert (Hsame : releasedCount cs h = connReleased k).
  { unfold releasedCount. rewrite Hk. reflexivity. }
  pose proof (closeRun_phase closeErr x cs h k Hopen Hconn Hk sched _
                (closeInit_phase closeErr x cs h k n)) as Hph.
  fold s in Hph.
  assert (Hidle : forall w t p, othersIdle w s -> callers s !! t = Some p ->
                    callerWon p = true -> t = w).
  { intros w t p Hid Hl Hw. destruct (decide (t = w)) as [|Hne]; [assumption|].
    destruct (Hid _ _ Hne Hl) as [-> | ->]; discriminate Hw. }
  destruct Hph as [Hc Hcs Hall|w Hc Hcs Hw Hid|w Hc Hcs Hw Hid].
  - (* nobody has claimed yet *)
    repeat split.
    + intros t1 t2 p1 p2 H1 _ W1 _. apply Hall in H1. subst p1. discriminate W1.
    + intros t r Hl. apply Hall in Hl. discriminate Hl.
    + apply Hall in H. discriminate H.
    + apply Hall in H. discriminate H.
    + left. rewrite Hcs. exact Hsame.
    + intros h' _. rewrite Hcs. reflexivity.
    + intros Hn Hdone. destruct (lookup_lt_is_Some_2 (callers s) O) as [p Hp]; [lia|].
      pose proof (Hdone _ _ Hp) as Hd. apply Hall in Hp. subst p. discriminate Hd.
  - (* claimed, not yet released *)
    repeat split.
    + intros t1 t2 p1 p2 H1 H2 W1 W2.
      rewrite (Hidle w t1 p1), (Hidle w t2 p2); auto.
    + intros t r Hl. destruct (decide (t = w)) as [->|Hne].
      * rewrite Hw in Hl. discriminate Hl.
      * destruct (Hid _ _ Hne Hl) as [E|E]; [discriminate E|]. injection E as ->. reflexivity.
    + rewrite (Hidle w t _ Hid H eq_refl) in H. rewrite Hw in H. discriminate H.
    + rewrite (Hidle w t _ Hid H eq_refl) in H. rewrite Hw in H. discriminate H.
    + left. rewrite Hcs. exact Hsame.
    + intros h' _. rewrite Hcs. reflexivity.
    + intros _ Hdone. apply Hdone in Hw. discriminate Hw.
  - (* released *)
    repeat split.
    + intros t1 t2 p1 p2 H1 H2 W1 W2.
      rewrite (Hidle w t1 p1), (Hidle w t2 p2); auto.
    + intros t r Hl. destruct (decide (t = w)) as [->|Hne].
      * rewrite Hw in Hl. discriminate Hl.
      * destruct (Hid _ _ Hne Hl) as [E|E]; [discriminate E|]. injection E as ->. reflexivity.
    + rewrite (Hidle w t _ Hid H eq_refl) in H. rewrite Hw in H. injection H as <-. reflexivity.
    + rewrite Hcs. exact Hrel.
    + right. rewrite Hcs. exact Hrel.
    + intros h' Hne. rewrite Hcs. apply list_lookup_insert_ne. auto.
    + intros _ _. exists w. exact Hw.
Qed.

Lemma Close_idempotent_witness :
  let s := closeRun exampleCloseErr [O; 1%nat; O; 1%nat]
             (closeInit exampleOpenClient exampleTable 2) in
  callers s = [CDone true (Returns (Some (ExtErr "conn closing"))); CDone false (Returns None)]
  /\ releasedCount (cconns s) O = 1%nat
  /\ forall t r, callers s !! t = Some (CDone true r) ->
       r = Returns (exampleCloseErr O) /\ releasedCount (cconns s) O = 1%nat.
Proof.
  split; [reflexivity|]. split; [reflexivity|].
  exact (proj1 (proj2 (proj2
    (Close_idempotent exampleCloseErr exampleOpenClient exampleTable O exampleConn 2
       [O; 1%nat; O; 1%nat] eq_refl eq_refl eq_refl)))).
Defined.

(** ** The race: taking a step apart *)

Ltac break_match H :=
  match type of H with
  | context [match ?x with _ => _ end] =>
      match x with
      | context [match _ with _ => _ end] => fail 1
      | _ => destruct x eqn:?
      end
  end.

(** Unfolds a step [H : step act s = Some s'] into the cases of the source and
    replaces [s'] by the state each case builds. *)
Ltac step_cases H :=
  unfold step, selectStep, mainStep, withAttempt, dialStep, pingStep, localStep,
    sendErr, getClientConn, traceWrap in H;
  repeat (break_match H; try discriminate H);
  injection H as <-.

Lemma lookup_alter_inv {A} (f : A -> A) (l : list A) (g g' : nat) (a' : A) :
  alter f g l !! g' = Some a' ->
  exists a, l !! g' = Some a /\ ((g' = g /\ a' = f a) \/ (g' <> g /\ a' = a)).
Proof.
  intros H. destruct (decide (g = g')) as [->|Hne].
  - rewrite list_lookup_alter_eq in H. destruct (l !! g') as [a|]; [|discriminate H].
    injection H as <-. eauto.
  - rewrite list_lookup_alter_ne in H by assumption. eauto.
Qed.

Lemma pool_writeC (x : Client.t) (s : State) (g : nat) (a' : Attempt) :
  pool (writeC x s) !! g = Some a' ->
  exists a, pool s !! g = Some a /\ (a' = a \/ a' = with_clt x a).
Proof.
  unfold writeC. destruct (cvar s); cbn; eauto.
  intros H. apply lookup_alter_inv in H as (a & Ha & [(_ & ->)|(_ & ->)]); eauto.
Qed.

(** What a step leaves alone. *)
Lemma step_deadline (act : action) (s s' : State) :
  step act s = Some s' -> deadline s' = deadline s /\ now s <= now s'.
Proof.
  intros H. step_cases H; cbn; unfold writeC; try destruct (cvar s); cbn;
    split; try reflexivity; lia.
Qed.

(** The loop body leaves the flag and the installed fields of the client
    alone, and every goroutine it starts stands at its first statement
    without a claim. *)
Lemma rangeBody_client (i : nat) (x x' : Client.t) (cr : Credentials.t)
    (r : error + list Attempt) :
  rangeBody i x cr = (x', r) ->
  Client.atomicFlag x' = Client.atomicFlag x /\ Client.dialer x' = Client.dialer x
  /\ Client.conn x' = Client.conn x /\ Client.grpc x' = Client.grpc x
  /\ Client.c x' = Client.c x.
Proof.
  unfold rangeBody, traceWrap. intros H.
  repeat (break_match H; try discriminate H); injection H as <- <-; cbn; auto.
Qed.

Lemma rangeBody_started (i : nat) (x x' : Client.t) (cr : Credentials.t)
    (l : list Attempt) (a : Attempt) :
  rangeBody i x cr = (x', inr l) -> a ∈ l ->
  apc a = PDial /\ aclaim a = None /\ acred a = i.
Proof.
  unfold rangeBody, traceWrap. intros H Ha.
  repeat (break_match H; try discriminate H); injection H as <- <-;
    rewrite ?elem_of_app, ?elem_of_cons, ?list_elem_of_fmap, ?elem_of_nil in Ha;
    repeat match goal with
           | H : _ \/ _ |- _ => destruct H
           | H : exists _, _ |- _ => destruct H as (? & -> & ?)
           | H : False |- _ => destruct H
           end; subst; cbn; auto.
Qed.

Ltac pool_cases H :=
  cbn [pool upd_attempt set_pool set_client set_mainpc set_cvar set_errs set_conns
       set_clientChanClosed set_panicked set_now] in H;
  repeat first
    [ apply lookup_alter_inv in H as (? & H & [(-> & ->)|(? & ->)])
    | apply pool_writeC in H as (? & H & [->| ->])
    | apply lookup_app_Some in H as [H|(? & H)] ].

Ltac started_facts :=
  match goal with
  | Hr : rangeBody _ _ _ = (_, inr ?l), Hl : ?l !! _ = Some ?a |- _ =>
      let F := fresh "F" in
      pose proof (rangeBody_started _ _ _ _ _ a Hr (proj2 (list_elem_of_lookup l a) (ex_intro _ _ Hl)))
        as (F & ? & ?);
      clear Hl
  end.

Lemma setOpen_inv (x x' : Client.t) (won : bool) :
  setOpen x = (won, x') ->
  (won = true /\ Client.atomicFlag x = unsetFlag /\ x' = Client.with_atomicFlag openFlag x)
  \/ (won = false /\ Client.atomicFlag x <> unsetFlag /\ x' = x).
Proof.
  rewrite setOpen_spec. destruct (Z.eqb_spec (Client.atomicFlag x) unsetFlag);
    intros H; injection H as <- <-; auto.
Qed.

(** Writing through [c] touches a client and nothing else. *)
Lemma writeC_frame (x : Client.t) (s : State) :
  mainpc (writeC x s) = mainpc s /\ cvar (writeC x s) = cvar s
  /\ errs (writeC x s) = errs s /\ conns (writeC x s) = conns s
  /\ clientChanClosed (writeC x s) = clientChanClosed s
  /\ panicked (writeC x s) = panicked s
  /\ now (writeC x s) = now s /\ deadline (writeC x s) = deadline s.
Proof. unfold writeC. destruct (cvar s) eqn:E; cbn; rewrite ?E; repeat split. Qed.

Lemma writeC_mainpc x s : mainpc (writeC x s) = mainpc s.
Proof. apply writeC_frame. Qed.
Lemma writeC_cvar x s : cvar (writeC x s) = cvar s.
Proof. apply writeC_frame. Qed.
Lemma writeC_errs x s : errs (writeC x s) = errs s.
Proof. apply writeC_frame. Qed.
Lemma writeC_conns x s : conns (writeC x s) = conns s.
Proof. apply writeC_frame. Qed.
Lemma writeC_clientChanClosed x s : clientChanClosed (writeC x s) = clientChanClosed s.
Proof. apply writeC_frame. Qed.
Lemma writeC_panicked x s : panicked (writeC x s) = panicked s.
Proof. apply writeC_frame. Qed.
Lemma writeC_now x s : now (writeC x s) = now s.
Proof. apply writeC_frame. Qed.
Lemma writeC_deadline x s : deadline (writeC x s) = deadline s.
Proof. apply writeC_frame. Qed.

Lemma writeC_client (x : Client.t) (s : State) :
  client (writeC x s) = match cvar s with TheClient => x | _ => client s end.
Proof. unfold writeC. destruct (cvar s); reflexivity. Qed.

Create Rewrite HintDb race.
#[local] Hint Rewrite writeC_mainpc writeC_cvar writeC_errs writeC_conns
  writeC_clientChanClosed writeC_panicked writeC_now writeC_deadline writeC_client : race.

Ltac simpl_state :=
  cbn [client cvar mainpc errs conns clientChanClosed panicked now deadline
       upd_attempt set_pool set_client set_mainpc set_cvar set_errs set_conns
       set_clientChanClosed set_panicked set_now] in *;
  autorewrite with race in *;
  cbn [client cvar mainpc errs conns clientChanClosed panicked now deadline
       upd_attempt set_pool set_client set_mainpc set_cvar set_errs set_conns
       set_clientChanClosed set_panicked set_now] in *.

Lemma step_inv_running (act : action) (s s' : State) :
  RaceInv s -> step act s = Some s' ->
  mainpc s' <> MReturned None ->
  cvar s' = TheClient /\ clientChanClosed s' = false /\ panicked s' = false.
Proof.
  intros I H. pose proof (inv_running s I) as R. pose proof (inv_winner_seen s I) as W.
  step_cases H; intros Hm; simpl_state;
    try (destruct R as (Rc & Rch & Rp); [congruence|]);
    try congruence; auto.
  all: try (exfalso; apply Hm; eapply W; eauto; fail).
  - unfold derefC in *. rewrite Rc in *. discriminate.
  - unfold derefC in *. rewrite Rc in *. discriminate.
Qed.

Ltac same_lookup :=
  repeat match goal with
         | H1 : ?l !! ?g = Some ?a, H2 : ?l !! ?g = Some ?b |- _ =>
             rewrite H1 in H2; injection H2 as <-
         end.

Ltac simpl_attempt :=
  same_lookup;
  cbn [apc aclaim adialer aaddr acred clt at_pc with_clt claimed_at] in *.

Lemma step_inv_winner_seen (act : action) (s s' : State) :
  RaceInv s -> step act s = Some s' ->
  forall g a, pool s' !! g = Some a ->
    apc a = PCloseChan \/ apc a = PReturned Won -> mainpc s' = MReturned None.
Proof.
  intros I H. pose proof (inv_winner_seen s I) as W.
  step_cases H; intros g' a' Hl Hp; pool_cases Hl; try started_facts;
    simpl_state; simpl_attempt;
    try reflexivity;
    try (destruct Hp; congruence);
    try (pose proof (W _ _ Hl Hp); congruence).
  all: try (eapply W; eauto; fail).
Qed.

Lemma step_inv_flag (act : action) (s s' : State) :
  RaceInv s -> step act s = Some s' ->
  Client.atomicFlag (client s') = unsetFlag \/ Client.atomicFlag (client s') = openFlag.
Proof.
  intros I H. pose proof (inv_flag s I) as F.
  step_cases H; simpl_state; auto.
  - apply rangeBody_client in Heqp as (-> & _). exact F.
  - apply rangeBody_client in Heqp as (-> & _). exact F.
  - unfold derefC in *. destruct (cvar s); auto.
    injection Heqo0 as <-. apply setOpen_inv in Heqp as [(_ & _ & ->)|(_ & _ & ->)]; auto.
  - unfold derefC in *. destruct (cvar s); auto.
    injection Heqo0 as <-. apply setOpen_inv in Heqp as [(_ & _ & ->)|(_ & _ & ->)]; auto.
  - unfold derefC in *. destruct (cvar s); auto.
    injection Heqo0 as <-. cbn. exact F.
Qed.

Lemma step_inv_claims (act : action) (s s' : State) :
  RaceInv s -> step act s = Some s' ->
  cvar s' = TheClient ->
  forall g a, pool s' !! g = Some a -> aclaim a = None \/ aclaim a = Some TheClient.
Proof.
  intros I H. pose proof (inv_claims s I) as C.
  step_cases H; intros Hc g' a' Hl; pool_cases Hl; try started_facts;
    simpl_state; simpl_attempt; try discriminate Hc; eauto.
  all: try (right; congruence).
Qed.

Lemma step_inv_sender (act : action) (s s' : State) :
  RaceInv s -> step act s = Some s' ->
  forall g a, pool s' !! g = Some a -> apc a = PSendClient -> aclaim a <> None.
Proof.
  intros I H. pose proof (inv_sender s I) as S. pose proof (inv_install s I) as N.
  step_cases H; intros g' a' Hl Hp; pool_cases Hl; try started_facts;
    simpl_state; simpl_attempt; try discriminate Hp; try congruence; eauto.
  all: try (match goal with
            | Hi : apc ?a = PInstall _ _, Hl : pool _ !! _ = Some ?a |- _ =>
                rewrite (N _ _ _ _ Hl Hi); discriminate
            end).
Qed.

Lemma step_inv_install (act : action) (s s' : State) :
  RaceInv s -> step act s = Some s' ->
  forall g a conn service, pool s' !! g = Some a ->
    apc a = PInstall conn service -> aclaim a = Some (cvar s').
Proof.
  intros I H. pose proof (inv_install s I) as N.
  step_cases H; intros g' a' cn sv Hl Hp; pool_cases Hl; try started_facts;
    simpl_state; simpl_attempt; try discriminate Hp; try congruence; eauto.
  - (* the caller takes the client of the sender: nobody stands between the
       claim and the assignments then *)
    exfalso.
    destruct (inv_running s I) as (Rc & _); [congruence|].
    pose proof (N _ _ _ _ Hl Hp) as Ha'. rewrite Rc in Ha'.
    assert (aclaim a = Some TheClient) as Ha.
    { destruct (inv_claims s I Rc _ _ Heqo) as [E|E]; [|exact E].
      destruct (inv_sender s I _ _ Heqo Heqa0 E). }
    pose proof (inv_unique s I _ _ _ _ Hl Heqo Ha' Ha). congruence.
  - exfalso. destruct (inv_running s I) as (_ & Rch & _); congruence.
Qed.

Lemma step_inv_unset (act : action) (s s' : State) :
  RaceInv s -> step act s = Some s' ->
  Client.atomicFlag (client s') = unsetFlag ->
  forall g a, pool s' !! g = Some a -> aclaim a <> Some TheClient.
Proof.
  intros I H. pose proof (inv_unset s I) as U.
  step_cases H; intros Hf g' a' Hl; pool_cases Hl; try started_facts;
    simpl_state; simpl_attempt; try congruence; eauto.
  all: try (apply rangeBody_client in Heqp as (Ef & _); rewrite Ef in Hf; eauto; fail).
  all: unfold derefC in *; destruct (cvar s) eqn:Ec; try discriminate;
    try (injection Heqo0 as <-);
    try (apply setOpen_inv in Heqp as [(_ & ? & ->)|(_ & ? & ->)]);
    cbn in Hf; try discriminate Hf; eauto.
Qed.

Lemma step_inv_unique (act : action) (s s' : State) :
  RaceInv s -> step act s = Some s' ->
  forall g1 g2 a1 a2, pool s' !! g1 = Some a1 -> pool s' !! g2 = Some a2 ->
    claimedTheClient a1 -> claimedTheClient a2 -> g1 = g2.
Proof.
  intros I H. pose proof (inv_unique s I) as Q. pose proof (inv_unset s I) as U.
  unfold claimedTheClient in *.
  step_cases H; intros g1 g2 a1 a2 H1 H2 C1 C2; pool_cases H1; pool_cases H2;
    repeat started_facts; simpl_state; simpl_attempt; try congruence; eauto.
  all: unfold derefC in *; destruct (cvar s) eqn:Ec; try discriminate;
    try (injection Heqo0 as <-);
    apply setOpen_inv in Heqp as [(_ & Hf & ->)|(? & _)]; try discriminate;
    exfalso; eapply (U Hf); eauto.
Qed.

Lemma openedBy_grow (s : State) (g : nat) (h : grpc_ClientConn) (cs : list ClientConn)
    (v : list Attempt) :
  openedBy s g h -> forall s', conns s' = conns s ++ cs -> openedBy s' g h.
Proof.
  intros (k & Hk & Hg) s' E. exists k. rewrite E. split; [|exact Hg].
  apply lookup_app_l_Some. exact Hk.
Qed.

Lemma openedBy_same (s s' : State) (g : nat) (h : grpc_ClientConn) :
  conns s' = conns s -> openedBy s g h -> openedBy s' g h.
Proof. unfold openedBy. intros ->. auto. Qed.

Lemma openedBy_new (s s' : State) (g : nat) (k : ClientConn) :
  conns s' = conns s ++ [k] -> connOpenedBy k = g -> openedBy s' g (length (conns s)).
Proof.
  intros E Hg. exists k. rewrite E. split; [|exact Hg].
  rewrite lookup_app_r by lia. rewrite Nat.sub_diag. reflexivity.
Qed.

Lemma handlesOk_grow (s s' : State) (g : nat) (p : attemptPC) (cs : list ClientConn) :
  conns s' = conns s ++ cs -> handlesOk s g p -> handlesOk s' g p.
Proof.
  intros E. assert (G : forall h, openedBy s g h -> openedBy s' g h).
  { intros h Hh. eapply (openedBy_grow s g h cs []); eauto. }
  destruct p; cbn; intuition auto.
  destruct H1 as (c' & -> & Hc'). eauto.
  destruct H1 as (c' & -> & Hc'). eauto.
Qed.

Lemma handlesOk_same (s s' : State) (g : nat) (p : attemptPC) :
  conns s' = conns s -> handlesOk s g p -> handlesOk s' g p.
Proof.
  intros E. apply (handlesOk_grow s s' g p []). rewrite E, app_nil_r. reflexivity.
Qed.

Lemma step_inv_handles (act : action) (s s' : State) :
  RaceInv s -> step act s = Some s' ->
  forall g a, pool s' !! g = Some a -> handlesOk s' g (apc a).
Proof.
  intros I H. pose proof (inv_handles s I) as Hh.
  step_cases H; intros g' a' Hl; pool_cases Hl; try started_facts;
    simpl_state; simpl_attempt;
    try (match goal with F : apc a' = PDial |- _ => rewrite F; exact Logic.I end);
    try (match goal with
         | Hl : pool _ !! ?g0 = Some ?a0 |- handlesOk _ ?g0 (apc ?a0) =>
             first [ eapply handlesOk_same; [|exact (Hh _ _ Hl)]; simpl_state; reflexivity
                   | eapply handlesOk_grow; [|exact (Hh _ _ Hl)]; simpl_state; reflexivity ]
         end);
    try exact Logic.I.
  all: match goal with
       | Hl : pool _ !! ?g0 = Some ?a0, Hp : apc ?a0 = _ |- _ =>
           pose proof (Hh _ _ Hl) as Hold; rewrite Hp in Hold; cbn in Hold
       end.
  all: cbn [handlesOk].
  all: repeat match goal with
              | |- _ /\ _ => split
              | |- exists c, NewAuthServiceClient _ = NewAuthServiceClient c /\ _ =>
                  eexists; split; [reflexivity|]
              | H : _ /\ _ |- _ => destruct H
              | H : exists _, _ |- _ => destruct H as (? & ? & ?)
              end; subst; eauto.
  all: try (eapply openedBy_new; simpl_state; reflexivity).
  all: try (eapply openedBy_grow; eauto; simpl_state; eauto; fail).
  all: try (eapply openedBy_same; [|eassumption]; simpl_state; reflexivity).
  all: try (eexists; split; [reflexivity|]).
  all: try (eapply openedBy_same; [|eassumption]; simpl_state; reflexivity).
  all: try (match goal with
            | Ho : openedBy ?s0 ?g0 ?c0 |- openedBy _ ?g0 ?c0 =>
                eapply (openedBy_grow s0 g0 c0 _ [] Ho); reflexivity
            end).
Qed.

Lemma step_inv_preclaim (act : action) (s s' : State) :
  RaceInv s -> step act s = Some s' ->
  forall g a, pool s' !! g = Some a -> preClaim (apc a) = true -> aclaim a = None.
Proof.
  intros I H. pose proof (inv_preclaim s I) as P.
  step_cases H; intros g' a' Hl Hp; pool_cases Hl; try started_facts;
    simpl_state; simpl_attempt; try discriminate Hp; eauto.
  all: match goal with
       | Hl : pool _ !! _ = Some ?a0, Hq : apc ?a0 = _ |- aclaim ?a0 = None =>
           apply (P _ _ Hl); rewrite Hq; reflexivity
       end.
Qed.

Lemma step_inv_unreleased (act : action) (s s' : State) :
  RaceInv s -> step act s = Some s' ->
  forall h k, conns s' !! h = Some k -> connReleased k = O.
Proof.
  intros I H. pose proof (inv_unreleased s I) as U.
  step_cases H; intros h k Hl; simpl_state; eauto.
  all: apply lookup_app_Some in Hl as [Hl|(_ & Hl)]; eauto.
  all: apply list_lookup_singleton_Some in Hl as (_ & <-); reflexivity.
Qed.

(** A witness of [installed] survives a step that keeps the client's fields,
    keeps the claim and dialer of the witness, and only adds connections. *)
Lemma installed_keep (s s' : State) (cs : list ClientConn) :
  installed s ->
  Client.dialer (client s') = Client.dialer (client s) ->
  Client.conn (client s') = Client.conn (client s) ->
  Client.grpc (client s') = Client.grpc (client s) ->
  conns s' = conns s ++ cs ->
  (forall g a, pool s !! g = Some a -> claimedTheClient a ->
     exists a', pool s' !! g = Some a' /\ claimedTheClient a' /\ adialer a' = adialer a) ->
  installed s'.
Proof.
  intros [(Hd & Hc & Hg)|(g & a & conn & conn' & Ha & Hcl & Hd & Hc & Hg & Ho & Ho')]
         Ed Ec Eg Ecs Hpool.
  - left. rewrite Ed, Ec, Eg. auto.
  - right. destruct (Hpool g a Ha Hcl) as (a' & Ha' & Hcl' & Had).
    exists g, a', conn, conn'. rewrite Ed, Ec, Eg, Had.
    repeat split; auto; eapply (openedBy_grow s g _ cs []); eauto.
Qed.

(** After a write through [c] followed by a change [f] of attempt [g], an
    attempt keeps its claim and dialer if [f] keeps them or if it is not [g]. *)
Lemma pool_upd_writeC (g : nat) (f : Attempt -> Attempt) (x : Client.t) (s : State)
    (g0 : nat) (a0 : Attempt) :
  pool s !! g0 = Some a0 ->
  (forall a, aclaim (f a) = aclaim a /\ adialer (f a) = adialer a) \/ g0 <> g ->
  exists a', pool (upd_attempt g f (writeC x s)) !! g0 = Some a'
             /\ aclaim a' = aclaim a0 /\ adialer a' = adialer a0.
Proof.
  intros Ha0 Hf.
  assert (Hin : exists a1, pool (writeC x s) !! g0 = Some a1
                           /\ aclaim a1 = aclaim a0 /\ adialer a1 = adialer a0).
  { unfold writeC. destruct (cvar s) as [|g1|]; cbn; eauto.
    destruct (decide (g1 = g0)) as [->|Hne].
    - rewrite list_lookup_alter_eq, Ha0. cbn. eauto.
    - rewrite list_lookup_alter_ne by assumption. eauto. }
  destruct Hin as (a1 & Ha1 & Hc1 & Hd1). cbn [upd_attempt set_pool pool].
  destruct (decide (g = g0)) as [->|Hne].
  - rewrite list_lookup_alter_eq, Ha1. cbn. destruct Hf as [Hf|Hf]; [|congruence].
    destruct (Hf a1) as (E1 & E2). exists (f a1). split; [reflexivity|].
    split; congruence.
  - rewrite list_lookup_alter_ne by assumption. eauto.
Qed.

Lemma step_inv_installed (act : action) (s s' : State) :
  RaceInv s -> step act s = Some s' -> installed s'.
Proof.
  intros I H. pose proof (inv_installed s I) as N.
  pose proof (inv_preclaim s I) as P.
  assert (Keep : forall g f cs x,
            (forall a, aclaim (f a) = aclaim a /\ adialer (f a) = adialer a) ->
            Client.dialer x = Client.dialer (client s) ->
            Client.conn x = Client.conn (client s) ->
            Client.grpc x = Client.grpc (client s) ->
            forall s1, client s1 = x -> conns s1 = conns s ++ cs ->
              pool s1 = alter f g (pool s) -> installed s1).
  { intros g f cs x Hf Ed Ec Eg s1 E1 E2 E3.
    apply (installed_keep s s1 cs N); rewrite ?E1; auto.
    intros g0 a0 Ha0 Hcl. rewrite E3.
    destruct (decide (g = g0)) as [->|Hne].
    - exists (f a0). rewrite list_lookup_alter_eq, Ha0. unfold claimedTheClient in *.
      destruct (Hf a0) as (-> & ->). auto.
    - exists a0. rewrite list_lookup_alter_ne by assumption. auto. }
  assert (KeepW : forall g f x,
            (forall a, aclaim (f a) = aclaim a /\ adialer (f a) = adialer a)
            \/ (forall a0, pool s !! g = Some a0 -> aclaim a0 = None) ->
            Client.dialer (client (writeC x s)) = Client.dialer (client s) ->
            Client.conn (client (writeC x s)) = Client.conn (client s) ->
            Client.grpc (client (writeC x s)) = Client.grpc (client s) ->
            installed (upd_attempt g f (writeC x s))).
  { intros g f x Hf Ed Ec Eg.
    apply (installed_keep s _ [] N); simpl_state; rewrite ?app_nil_r; auto.
    intros g0 a0 Ha0 Hcl. unfold claimedTheClient in *.
    destruct (pool_upd_writeC g f x s g0 a0 Ha0) as (a' & Ha' & Hc' & Hd').
    - destruct Hf as [Hf|Hf]; [left; exact Hf|right].
      intros ->. rewrite (Hf _ Ha0) in Hcl. discriminate Hcl.
    - exists a'. split; [exact Ha'|]. split; congruence. }
  step_cases H.
  all: try (eapply (Keep _ _ []); [| | | |reflexivity|simpl_state; rewrite ?app_nil_r; reflexivity
                                     |simpl_state; reflexivity];
            [intros ?; split; reflexivity|reflexivity..]; fail).
  all: try (eapply (Keep _ _ [_]); [| | | |reflexivity|simpl_state; reflexivity
                                     |simpl_state; reflexivity];
            [intros ?; split; reflexivity|reflexivity..]; fail).
  all: try (apply (installed_keep s _ [] N); simpl_state; rewrite ?app_nil_r;
            try reflexivity; eauto; fail).
  - (* the loop body stops at an error *)
    apply rangeBody_client in Heqp as (_ & Ed & Ec & Eg & _).
    apply (installed_keep s _ [] N); simpl_state; rewrite ?app_nil_r; eauto.
  - (* the loop body starts goroutines *)
    apply rangeBody_client in Heqp as (_ & Ed & Ec & Eg & _).
    apply (installed_keep s _ [] N); simpl_state; rewrite ?app_nil_r; auto.
    intros g0 a0 Ha0 Hcl. exists a0. split; [|auto].
    cbn. apply lookup_app_l_Some. exact Ha0.
  - (* a won compare-and-swap *)
    apply setOpen_inv in Heqp as [(_ & _ & ->)|(? & _)]; [|discriminate].
    unfold derefC in Heqo0.
    apply KeepW.
    + right. intros a0 Ha0. rewrite Heqo in Ha0. injection Ha0 as <-.
      apply (P _ _ Heqo). rewrite Heqa0. reflexivity.
    + rewrite writeC_client. destruct (cvar s); try reflexivity.
      injection Heqo0 as <-. reflexivity.
    + rewrite writeC_client. destruct (cvar s); try reflexivity.
      injection Heqo0 as <-. reflexivity.
    + rewrite writeC_client. destruct (cvar s); try reflexivity.
      injection Heqo0 as <-. reflexivity.
  - (* a lost compare-and-swap *)
    apply setOpen_inv in Heqp as [(? & _)|(_ & _ & ->)]; [discriminate|].
    unfold derefC in Heqo0.
    apply KeepW.
    + left. intros ?; split; reflexivity.
    + rewrite writeC_client. destruct (cvar s); try reflexivity.
      injection Heqo0 as <-. reflexivity.
    + rewrite writeC_client. destruct (cvar s); try reflexivity.
      injection Heqo0 as <-. reflexivity.
    + rewrite writeC_client. destruct (cvar s); try reflexivity.
      injection Heqo0 as <-. reflexivity.
  - (* the three assignments *)
    destruct (cvar s) eqn:Ec.
    + (* on the client itself: the attempt becomes the witness *)
      right. pose proof (inv_install s I _ _ _ _ Heqo Heqa0) as Hcl. rewrite Ec in Hcl.
      pose proof (inv_handles s I _ _ Heqo) as Hh. rewrite Heqa0 in Hh.
      destruct Hh as (Ho & conn' & -> & Ho').
      exists g, (at_pc PSendClient a), conn, conn'.
      unfold writeC. rewrite Ec. cbn.
      rewrite list_lookup_alter_eq, Heqo. cbn.
      repeat split; auto.
    + apply KeepW; [left; intros ?; split; reflexivity| | |];
        rewrite writeC_client, Ec; reflexivity.
    + apply KeepW; [left; intros ?; split; reflexivity| | |];
        rewrite writeC_client, Ec; reflexivity.
Qed.

(** ** The invariant holds along every run *)

Lemma RaceInv_step (act : action) (s s' : State) :
  RaceInv s -> step act s = Some s' -> RaceInv s'.
Proof.
  intros I H. constructor.
  - eapply step_inv_running; eauto.
  - eapply step_inv_winner_seen; eauto.
  - eapply step_inv_flag; eauto.
  - eapply step_inv_unset; eauto.
  - eapply step_inv_unique; eauto.
  - eapply step_inv_install; eauto.
  - eapply step_inv_claims; eauto.
  - eapply step_inv_sender; eauto.
  - eapply step_inv_preclaim; eauto.
  - eapply step_inv_handles; eauto.
  - eapply step_inv_installed; eauto.
  - eapply step_inv_unreleased; eauto.
Qed.

Lemma RaceInv_init (cfg : Config.t) : RaceInv (initState cfg).
Proof.
  constructor; cbn; try (intros; discriminate); auto.
  - left. auto.
Qed.

Lemma run_invariant (P : State -> Prop) (sched : list action) (s : State) :
  (forall act s1 s2, P s1 -> step act s1 = Some s2 -> P s2) ->
  P s -> P (run sched s).
Proof.
  intros Hstep. revert s. induction sched as [|act sched IH]; intros s Hs; [exact Hs|].
  cbn [run]. destruct (step act s) as [s'|] eqn:E; eauto.
Qed.

Lemma RaceInv_run (cfg : Config.t) (sched : list action) :
  RaceInv (run sched (initState cfg)).
Proof. apply run_invariant; [apply RaceInv_step|apply RaceInv_init]. Qed.

Lemma exec_run (sched : list action) (s s' : State) :
  exec sched s = Some s' -> run sched s = s'.
Proof.
  revert s. induction sched as [|act sched IH]; intros s H; cbn in *.
  - congruence.
  - destruct (step act s); [auto|discriminate].
Qed.

(** ** The race: who wins and what happens to the connections *)

(** C1, as amended.  In every state a race reaches: at most one attempt's
    compare-and-swap on the flag of the client [connectWithAuth] was called on
    has succeeded; the [dialer], [conn] and [grpc] fields of that client are
    as [New] left them or hold the dialer of that attempt and handles of
    connections that attempt created; and no connection created during the
    race has been released, whoever created it. *)
Theorem race_single_winner_nothing_released (cfg : Config.t) (sched : list action) :
  let s := run sched (initState cfg) in
  (forall g1 g2 a1 a2, pool s !! g1 = Some a1 -> pool s !! g2 = Some a2 ->
      claimedTheClient a1 -> claimedTheClient a2 -> g1 = g2)
  /\ installed s
  /\ (forall h k, conns s !! h = Some k -> connOpen k = true).
Proof.
  intros s. pose proof (RaceInv_run cfg sched) as I. fold s in I.
  split; [exact (inv_unique s I)|]. split; [exact (inv_installed s I)|].
  intros h k Hk. unfold connOpen. rewrite (inv_unreleased s I h k Hk). reflexivity.
Qed.

(** C1, as stated, fails: after this race attempt 1 has lost the claim and
    returned, the caller has taken the client of attempt 0, and the connection
    attempt 1 created is still open. *)
Lemma race_loser_connection_left_open :
  exists s, exec loserSchedule (initState exampleConfig) = Some s
    /\ mainpc s = MReturned None
    /\ apc <$> pool s !! 1%nat = Some (PReturned Lost)
    /\ aclaim <$> pool s !! 0%nat = Some (Some TheClient)
    /\ connOpenedBy <$> conns s !! 1%nat = Some 1%nat
    /\ connOpen <$> conns s !! 1%nat = Some true.
Proof. eexists. split; [vm_compute; reflexivity|]. vm_compute. auto 10. Qed.

(** ** The race: the calling goroutine *)

(** A caller that stands in a send on [errChan] never leaves it: no action
    moves it and nobody receives what it sends. *)
Lemma blocked_send_step (act : action) (s s' : State) (i : nat) (e : error) :
  mainpc s = MSendErr i e -> step act s = Some s' ->
  mainpc s' = MSendErr i e /\ errs s' = errs s.
Proof.
  intros Hm H. step_cases H; simpl_state; try congruence; auto.
Qed.

Lemma blockedOnFirst_step (act : action) (s s' : State) :
  blockedOnFirst s -> step act s = Some s' -> blockedOnFirst s'.
Proof.
  intros (Hm & Hp & He) H.
  destruct Hm as [(Hm & Hc)|Hm].
  - step_cases H; unfold blockedOnFirst; simpl_state;
      try congruence;
      try (rewrite Hp in *; discriminate);
      try (rewrite Hc in *; cbn in *; congruence).
    all: try (injection Hm as ->; rewrite Hc in *; cbn in Heqo;
              try discriminate Heqo; injection Heqo as <-; cbn in Heqp).
    + injection Heqp as <- <-. cbn. auto.
    + discriminate Heqp.
    + cbn. auto.
  - destruct (blocked_send_step act s s' _ _ Hm H) as (Hm' & He').
    assert (pool s' = []).
    { step_cases H; simpl_state; try congruence;
        try (rewrite Hp in *; discriminate); cbn; auto. }
    unfold blockedOnFirst. rewrite He'. auto.
Qed.

(** C5 fails on the code (same defect as the send in the loop being on an
    unbuffered channel that only the caller itself receives from): with the
    single credential set of [brokenConfig], whose TLS config does not
    resolve, under every schedule the caller never returns and never gets
    past the send of the resolution error; no attempt is started and the
    error never reaches the collected errors. *)
Theorem resolution_error_blocks_caller (sched : list action) :
  let s := run sched (initState brokenConfig) in
  (mainpc s = MRange 0 \/ mainpc s = MSendErr 0 (ExtErr "no TLS config"))
  /\ (forall r, mainpc s <> MReturned r)
  /\ pool s = [] /\ errs s = [].
Proof.
  intros s.
  assert (B : blockedOnFirst s).
  { apply run_invariant; [apply blockedOnFirst_step|].
    unfold blockedOnFirst. cbn. auto. }
  destruct B as (Hm & Hp & He). repeat split; auto.
  - destruct Hm as [(Hm & _)|Hm]; auto.
  - intros r Hr. destruct Hm as [(Hm & _)|Hm]; congruence.
Qed.

Lemma step_errorReturn (act : action) (s s' : State) :
  errorReturn s -> step act s = Some s' -> errorReturn s'.
Proof.
  intros R H. pose proof (step_deadline act s s' H) as (Ed & En).
  unfold errorReturn in *. rewrite Ed.
  step_cases H; simpl_state; intros er Hm; try discriminate Hm;
    try (destruct (R er Hm) as (? & ?); split; [lia|assumption]);
    try congruence.
  unfold dialContextDone in Heqb0. apply Z.leb_le in Heqb0.
  injection Hm as <-. split; [exact Heqb0|reflexivity].
Qed.

Lemma errorReturn_run (cfg : Config.t) (sched : list action) :
  errorReturn (run sched (initState cfg)).
Proof.
  apply run_invariant; [apply step_errorReturn|]. intros err H. discriminate H.
Qed.

Lemma deadline_run (cfg : Config.t) (sched : list action) :
  deadline (run sched (initState cfg)) = time_Second.
Proof.
  apply (run_invariant (fun s => deadline s = time_Second)); [|reflexivity].
  intros act s1 s2 E H. apply step_deadline in H as (-> & _). exact E.
Qed.

(** With the caller in [select], letting the clock reach the deadline and
    taking the timeout case returns the error built from the errors received
    so far. *)
Lemma select_timeout_enabled (s : State) :
  panicked s = false -> mainpc s = MSelect ->
  exists s', exec [Tick (Z.max 0 (deadline s - now s)); SelectDone] s = Some s'
             /\ mainpc s' = MReturned (Some (timeoutError (errs s)))
             /\ now s' = Z.max (now s) (deadline s).
Proof.
  intros Hp Hm. cbn [exec]. unfold step at 1. rewrite Hp.
  destruct (Z.leb_spec 0 (Z.max 0 (deadline s - now s))) as [_|?]; [|lia].
  unfold step, selectStep, dialContextDone.
  cbn [panicked set_now mainpc deadline now]. rewrite Hp, Hm.
  destruct (Z.leb_spec (deadline s) (now s + Z.max 0 (deadline s - now s))) as [_|?]; [|lia].
  eexists. split; [reflexivity|]. cbn. split; [reflexivity|lia].
Qed.

(** C6, as amended.  The deadline of a race is one second after its start,
    whatever the configuration (the configured [DialTimeout] plays no part),
    and it never moves; an error is returned only once that deadline has
    passed; and whenever the caller stands in [select], letting the clock
    reach the deadline enables the timeout case, which returns the error. *)
Theorem dial_deadline_is_one_second (cfg : Config.t) (sched : list action) :
  let s := run sched (initState cfg) in
  deadline s = time_Second
  /\ (forall err, mainpc s = MReturned (Some err) -> time_Second <= now s)
  /\ (mainpc s = MSelect ->
      exists s', exec [Tick (Z.max 0 (time_Second - now s)); SelectDone] s = Some s'
                 /\ mainpc s' = MReturned (Some (timeoutError (errs s)))
                 /\ now s' = Z.max (now s) time_Second).
Proof.
  intros s. pose proof (deadline_run cfg sched) as D. fold s in D.
  split; [exact D|]. split.
  - intros err Hm. destruct (errorReturn_run cfg sched err Hm) as (Hd & _).
    fold s in Hd. lia.
  - intros Hm. pose proof (RaceInv_run cfg sched) as I. fold s in I.
    destruct (inv_running s I) as (_ & _ & Hp); [congruence|].
    pose proof (select_timeout_enabled s Hp Hm) as E. rewrite D in E. exact E.
Qed.

(** C6, as stated, fails: the deadline of a race under [exampleConfig] is not
    its configured [DialTimeout] of thirty seconds, and the race returns the
    timeout error when the clock reads one second. *)
Lemma dial_deadline_not_DialTimeout :
  deadline (initState exampleConfig) <> Config.DialTimeout exampleConfig
  /\ exists s, exec idleSchedule (initState exampleConfig) = Some s
       /\ mainpc s = MReturned (Some (WrapMsg DeadlineExceeded "all auth methods failed"))
       /\ now s = time_Second
       /\ now s < Config.DialTimeout exampleConfig.
Proof.
  split; [intros H; discriminate H|].
  eexists. split; [vm_compute; reflexivity|]. vm_compute. auto.
Qed.

(** ** The race: the collected errors *)

Lemma omap_alter_same {A B} (h : A -> option B) (f : A -> A) (g : nat) (l : list A) :
  (forall a, l !! g = Some a -> h (f a) = h a) ->
  omap h (alter f g l) = omap h l.
Proof.
  revert g. induction l as [|x l IH]; intros [|g] Hf; cbn; try reflexivity.
  - rewrite (Hf x eq_refl). reflexivity.
  - rewrite (IH g); [reflexivity|]. intros a Ha. apply Hf. exact Ha.
Qed.

Lemma omap_alter_new {A B} (h : A -> option B) (f : A -> A) (g : nat) (l : list A)
    (a : A) (b : B) :
  l !! g = Some a -> h a = None -> h (f a) = Some b ->
  omap h (alter f g l) ≡ₚ omap h l ++ [b].
Proof.
  revert g. induction l as [|x l IH]; intros [|g] Ha Hn Hs; cbn in *; try discriminate.
  - injection Ha as ->. rewrite Hn, Hs. apply Permutation_cons_append.
  - destruct (h x); cbn; [apply Permutation_skip|]; eauto.
Qed.

Lemma reported_writeC (x : Client.t) (s : State) :
  omap failedErr (pool (writeC x s)) = omap failedErr (pool s).
Proof.
  unfold writeC. destruct (cvar s); cbn; try reflexivity.
  apply omap_alter_same. reflexivity.
Qed.

Lemma reported_started (i : nat) (x x' : Client.t) (cr : Credentials.t) (l : list Attempt) :
  rangeBody i x cr = (x', inr l) -> omap failedErr l = [].
Proof.
  intros Hr.
  assert (H : forall a, a ∈ l -> failedErr a = None).
  { intros a Ha. destruct (rangeBody_started _ _ _ _ _ a Hr Ha) as (Hp & _).
    unfold failedErr. rewrite Hp. reflexivity. }
  clear Hr. induction l as [|a l IH]; [reflexivity|]. cbn.
  rewrite (H a) by apply list_elem_of_here. apply IH.
  intros b Hb. apply H. apply list_elem_of_further. exact Hb.
Qed.

(** The collected errors are, up to order, the errors the attempts have
    handed over. *)
Lemma step_reported (act : action) (s s' : State) :
  errs s ≡ₚ reported s -> step act s = Some s' -> errs s' ≡ₚ reported s'.
Proof.
  intros R H. unfold reported in *.
  step_cases H; simpl_state;
    cbn [pool upd_attempt set_pool set_client set_mainpc set_cvar set_errs set_conns
         set_clientChanClosed set_panicked set_now];
    rewrite ?omap_app;
    try (erewrite reported_started by eassumption; rewrite app_nil_r);
    try exact R;
    try (rewrite omap_alter_same;
         [rewrite ?reported_writeC; exact R|];
         intros a0 Ha0; try (apply pool_writeC in Ha0 as (? & Ha0 & [->| ->]));
         same_lookup; unfold failedErr; cbn;
         repeat match goal with E : apc _ = _ |- _ => rewrite E end; reflexivity).
  { (* goroutines are started: none of them has failed yet *)
    rewrite (reported_started _ _ _ _ _ Heqp), app_nil_r. exact R. }
  (* the error of an attempt is received *)
  symmetry. etransitivity.
  - eapply (omap_alter_new failedErr _ g (pool s) a e); eauto.
    unfold failedErr. rewrite Heqa0. reflexivity.
  - rewrite R. reflexivity.
Qed.

Lemma reported_run (cfg : Config.t) (sched : list action) :
  errs (run sched (initState cfg)) ≡ₚ reported (run sched (initState cfg)).
Proof.
  apply (run_invariant (fun s => errs s ≡ₚ reported s)); [apply step_reported|].
  reflexivity.
Qed.

Lemma causes_timeoutError (es : list error) :
  causes (timeoutError es) =
    match es with
    | [] => [DeadlineExceeded]
    | _ :: _ => flat_map causes es
    end.
Proof. destruct es; reflexivity. Qed.

(** C4, as amended.  Whenever [connectWithAuth] returns an error, the deadline
    has passed and the error is "all auth methods failed" wrapped around the
    aggregate of the errors received on [errChan] up to then, or around the
    timeout error alone when none was received.  The errors received are, up
    to order, exactly the errors of the attempts that have handed theirs over
    (an attempt still in flight, or still waiting to hand its error over,
    contributes nothing).  The caller standing in [select] does return this
    error once the clock reaches the deadline and the timeout case is
    taken. *)
Theorem connectWithAuth_error_is_aggregate (cfg : Config.t) (sched : list action) :
  let s := run sched (initState cfg) in
  (forall err, mainpc s = MReturned (Some err) ->
      deadline s <= now s
      /\ err = WrapMsg (match errs s with
                        | [] => DeadlineExceeded
                        | _ :: _ => Aggregate (errs s)
                        end) "all auth methods failed"
      /\ causes err = match errs s with
                      | [] => [DeadlineExceeded]
                      | _ :: _ => flat_map causes (errs s)
                      end)
  /\ errs s ≡ₚ reported s
  /\ (forall g a e, pool s !! g = Some a -> apc a = PReturned (Failed e) -> e ∈ errs s)
  /\ (mainpc s = MSelect ->
      exists s', exec [Tick (Z.max 0 (deadline s - now s)); SelectDone] s = Some s'
                 /\ mainpc s' = MReturned (Some (timeoutError (errs s)))).
Proof.
  intros s. pose proof (reported_run cfg sched) as R. fold s in R.
  split; [|split; [exact R|split]].
  - intros err Hm. destruct (errorReturn_run cfg sched err Hm) as (Hd & ->).
    fold s. split; [exact Hd|]. split; [|apply causes_timeoutError].
    destruct (errs s); reflexivity.
  - intros g a e Ha Hp. rewrite R. unfold reported.
    apply list_elem_of_omap. exists a. split.
    + apply list_elem_of_lookup. eauto.
    + unfold failedErr. rewrite Hp. reflexivity.
  - intros Hm. pose proof (RaceInv_run cfg sched) as I. fold s in I.
    destruct (inv_running s I) as (_ & _ & Hp); [congruence|].
    destruct (select_timeout_enabled s Hp Hm) as (s1 & E & M & _). eauto.
Qed.

(** C4, as stated, fails: in this race attempt 0 fails and its error is
    received, the other three attempts are still dialing when the deadline
    passes, nobody has won, and the error returned holds the error of
    attempt 0 but not the timeout error. *)
Lemma timeout_error_left_out_of_aggregate :
  exists s err, exec partialFailureSchedule (initState exampleConfig) = Some s
    /\ mainpc s = MReturned (Some err)
    /\ deadline s <= now s
    /\ (apc <$> pool s) = [PReturned (Failed (ExtErr "connection refused")); PDial; PDial; PDial]
    /\ causes err = [ExtErr "connection refused"]
    /\ ~ In DeadlineExceeded (causes err).
Proof.
  eexists. eexists. split; [vm_compute; reflexivity|].
  split; [vm_compute; reflexivity|]. split; [vm_compute; discriminate|].
  split; [vm_compute; reflexivity|]. split; [vm_compute; reflexivity|].
  vm_compute. intros [H|[]]. discriminate H.
Qed.

(** ** The tunnel branch *)

(** C2 fails on the code.  In this race the Ping answer advertises the tunnel
    address "tunnel.example.com:3024" and the credentials carry an SSH
    config: the second connection is dialed with the tunnel dialer, but to
    the fixed address "localhost:3024", and the attempt that wins installs
    the first, directly dialed connection as [c.conn] while [c.grpc] talks
    over the second.  [setClientConn] on the same answers dials the address
    it was given a second time and also keeps the first connection. *)
Theorem tunnel_branch_ignores_advertised_address :
  (exists s, exec tunnelSchedule (initState exampleConfig) = Some s
     /\ mainpc s = MReturned None
     /\ (connTarget <$> conns s) = ["proxy.example.com:443"; "localhost:3024"]
     /\ (connDialer <$> conns s)
        = [Some (NewDialer (60 * time_Second) (30 * time_Second));
           Some (NewTunnelDialer (SSH "identity") (60 * time_Second) (30 * time_Second))]
     /\ Client.conn (client s) = Some 0%nat
     /\ Client.grpc (client s) = Some (NewAuthServiceClient 1%nat))
  /\ (let '(err, x, cs) :=
        setClientConn resolvedClient (Some (CustomDialer "direct")) "proxy.example.com:443"
          None (proxyPing, None) None (plainPing, None) [] in
      err = None
      /\ (connTarget <$> cs) = ["proxy.example.com:443"; "proxy.example.com:443"]
      /\ Client.conn x = Some 0%nat
      /\ Client.grpc x = Some (NewAuthServiceClient 1%nat)).
Proof.
  split.
  - eexists. split; [vm_compute; reflexivity|]. vm_compute. auto 10.
  - vm_compute. auto.
Qed.

(** ** The enumeration of attempts *)

(** What the loop body starts for a credential set, when it starts
    anything: the credential set resolved, and the goroutines are the
    enumerated attempts, all for index [i]. *)
Lemma rangeBody_enumerated (i : nat) (x x' : Client.t) (cr : Credentials.t)
    (l : list Attempt) :
  rangeBody i x cr = (x', inr l) ->
  resolves cr
  /\ (fun a => (adialer a, aaddr a)) <$> l = enumeratedAttempts (Client.c x) cr
  /\ Forall (fun a => acred a = i) l.
Proof.
  unfold rangeBody, traceWrap, enumeratedAttempts, resolves. intros H.
  destruct (Credentials.TLSConfig cr) as [tls [e|]]; [discriminate H|].
  destruct (Credentials.SSHConfig cr) as [ssh [e|]]; [discriminate H|].
  cbn [fst snd]. split; [auto|]. cbn in H.
  destruct (Credentials.Dialer cr) as [d [e|]].
  - destruct (Config.Dialer (Client.c x)) as [d'|].
    + injection H as <- <-. cbn. auto.
    + injection H as <- <-. rewrite fmap_app. split.
      * f_equal; [rewrite <- list_fmap_compose; reflexivity|].
        destruct ssh; [rewrite <- list_fmap_compose|]; reflexivity.
      * apply Forall_app. split; [apply Forall_fmap, Forall_true; reflexivity|].
        destruct ssh; [apply Forall_fmap, Forall_true; reflexivity|constructor].
  - injection H as <- <-. cbn. auto.
Qed.

(** The loop body that stops at an error found a credential set that does
    not resolve. *)
Lemma rangeBody_error (i : nat) (x x' : Client.t) (cr : Credentials.t) (e : error) :
  rangeBody i x cr = (x', inl e) -> ~ resolves cr.
Proof.
  unfold rangeBody, traceWrap, resolves. intros H (H1 & H2).
  destruct (Credentials.TLSConfig cr) as [tls [e1|]]; [discriminate H1|].
  destruct (Credentials.SSHConfig cr) as [ssh [e2|]]; [discriminate H2|].
  cbn in H. repeat (break_match H; try discriminate H).
Qed.

Lemma launchedFor_app (i : nat) (l1 l2 : list Attempt) :
  launchedFor i (l1 ++ l2) = launchedFor i l1 ++ launchedFor i l2.
Proof. unfold launchedFor. rewrite filter_app, fmap_app. reflexivity. Qed.

Lemma launchedFor_all (i : nat) (l : list Attempt) :
  Forall (fun a => acred a = i) l ->
  launchedFor i l = (fun a => (adialer a, aaddr a)) <$> l.
Proof.
  unfold launchedFor. induction 1 as [|a l Ha _ IH]; [reflexivity|].
  rewrite filter_cons_True by assumption. cbn. f_equal. exact IH.
Qed.

Lemma launchedFor_none (i : nat) (l : list Attempt) :
  Forall (fun a => acred a <> i) l -> launchedFor i l = [].
Proof.
  unfold launchedFor. induction 1 as [|a l Ha _ IH]; [reflexivity|].
  rewrite filter_cons_False by assumption. exact IH.
Qed.

Lemma launchedFor_alter (i g : nat) (f : Attempt -> Attempt) (l : list Attempt) :
  (forall a, acred (f a) = acred a /\ adialer (f a) = adialer a /\ aaddr (f a) = aaddr a) ->
  launchedFor i (alter f g l) = launchedFor i l.
Proof.
  intros Hf. unfold launchedFor. revert g.
  induction l as [|a l IH]; intros [|g]; cbn [alter list_alter]; try reflexivity.
  - destruct (Hf a) as (Hc & Hd & Ha).
    destruct (decide (acred a = i)) as [E|E].
    + rewrite !filter_cons_True by congruence. cbn. rewrite Hd, Ha. reflexivity.
    + rewrite !filter_cons_False by congruence. reflexivity.
  - destruct (decide (acred a = i)) as [E|E].
    + rewrite !filter_cons_True by assumption. cbn. f_equal. apply IH.
    + rewrite !filter_cons_False by assumption. apply IH.
Qed.

Lemma launchedFor_writeC (i : nat) (x : Client.t) (s : State) :
  launchedFor i (pool (writeC x s)) = launchedFor i (pool s).
Proof.
  unfold writeC. destruct (cvar s); cbn; try reflexivity.
  apply launchedFor_alter. intros a. auto.
Qed.

(** A step of anybody but the loop keeps the configuration, what was started
    for each credential set, and how far the loop is. *)
Lemma step_outside_loop (act : action) (s s' : State) :
  act <> Main -> step act s = Some s' ->
  Client.c (client s') = Client.c (client s)
  /\ (forall i, launchedFor i (pool s') = launchedFor i (pool s))
  /\ (forall g a', pool s' !! g = Some a' ->
        exists a, pool s !! g = Some a /\ acred a' = acred a)
  /\ (forall i, loopPassed i (mainpc s) -> loopPassed i (mainpc s')).
Proof.
  intros Hact H. step_cases H; try congruence.
  all: split; [|split; [|split]].
  all: try (intros i; simpl_state; cbn [pool upd_attempt set_pool];
            rewrite ?launchedFor_alter by (intros ?; auto);
            rewrite ?launchedFor_writeC; reflexivity).
  all: try (intros g' a' Hl; pool_cases Hl; simpl_attempt; eauto; fail).
  all: try (intros i Hi; simpl_state; rewrite ?Heqm in *; cbn; auto; fail).
  all: try (simpl_state; reflexivity).
  all: try (simpl_state; unfold derefC in *; destruct (cvar s); try reflexivity;
            match goal with E : Some _ = Some _ |- _ => injection E as <- end;
            try (apply setOpen_inv in Heqp as [(_ & _ & ->)|(_ & _ & ->)]);
            reflexivity).
Qed.

Lemma LoopInv_step (cfg : Config.t) (act : action) (s s' : State) :
  LoopInv cfg s -> step act s = Some s' -> LoopInv cfg s'.
Proof.
  intros [Hc Hs Hp] H.
  assert (Hdec : act = Main \/ act <> Main) by (destruct act; auto; right; discriminate).
  destruct Hdec as [->|Hne].
  - unfold step in H. destruct (panicked s); [discriminate H|].
    unfold mainStep, sendErr in H.
    destruct (mainpc s) as [i|i e| |r] eqn:Hm; try discriminate H.
    rewrite Hc in H.
    destruct (Config.Credentials cfg !! i) as [cr|] eqn:Hcr.
    + destruct (rangeBody i (client s) cr) as [x [e|l]] eqn:Hr; injection H as <-.
      * (* the body stops at an error: nothing is started *)
        apply rangeBody_client in Hr as (_ & _ & _ & _ & Ec).
        constructor; cbn; [congruence|exact Hs|exact Hp].
      * (* the body starts the attempts of this credential set *)
        pose proof (rangeBody_client _ _ _ _ _ Hr) as (_ & _ & _ & _ & Ec).
        pose proof (rangeBody_enumerated _ _ _ _ _ Hr) as (Hres & Henum & Hall).
        rewrite Hc in Henum.
        constructor; cbn [client mainpc pool set_mainpc set_pool set_client].
        -- congruence.
        -- intros g a Ha. apply lookup_app_Some in Ha as [Ha|(_ & Ha)].
           ++ apply Hs in Ha. cbn in *. lia.
           ++ rewrite Forall_forall in Hall.
              rewrite (Hall a) by (apply list_elem_of_lookup; eauto). cbn. lia.
        -- intros j cr' Hj Hpass. cbn in Hpass. rewrite launchedFor_app.
           destruct (decide (j = i)) as [->|Hji].
           ++ rewrite Hj in Hcr. injection Hcr as ->. split; [exact Hres|].
              rewrite (launchedFor_none i (pool s)), (launchedFor_all i l Hall); [exact Henum|].
              apply Forall_forall. intros a Ha.
              apply list_elem_of_lookup in Ha as (g & Ha). apply Hs in Ha. cbn in Ha. lia.
           ++ destruct (Hp j cr' Hj) as (Hres' & El); [cbn; lia|].
              split; [exact Hres'|]. rewrite El, (launchedFor_none j l), app_nil_r; [reflexivity|].
              eapply Forall_impl; [exact Hall|]. cbn. intros a ->. auto.
    + (* past the last credential set *)
      injection H as <-. constructor; cbn; [exact Hc|auto|].
      intros j cr' Hj _. apply Hp; [exact Hj|]. cbn.
      apply lookup_lt_Some in Hj. apply lookup_ge_None in Hcr. lia.
  - destruct (step_outside_loop act s s' Hne H) as (Ec & El & Ea & Em).
    constructor.
    + congruence.
    + intros g a' Ha'. destruct (Ea g a' Ha') as (a & Ha & ->). apply Em. eauto.
    + intros i cr Hi Hpass. rewrite El.
      apply Hp; [exact Hi|].
      (* how far the loop is does not change either way *)
      clear - H Hne Hpass. step_cases H; try congruence; simpl_state;
        rewrite ?Heqm; cbn; auto.
Qed.

Lemma LoopInv_run (cfg : Config.t) (sched : list action) :
  LoopInv cfg (run sched (initState cfg)).
Proof.
  apply run_invariant; [apply LoopInv_step|].
  constructor; cbn; [reflexivity|intros g a H; discriminate H|].
  intros i cr _ H. lia.
Qed.

(** When every credential set resolves, the loop alone runs to its end. *)
Lemma loop_runs_to_select (cfg : Config.t) (s : State) (i : nat) :
  panicked s = false -> mainpc s = MRange i -> Client.c (client s) = cfg ->
  Forall resolves (drop i (Config.Credentials cfg)) ->
  exists s', exec (replicate (S (length (Config.Credentials cfg) - i)) Main) s = Some s'
             /\ mainpc s' = MSelect.
Proof.
  remember (length (Config.Credentials cfg) - i)%nat as n eqn:En.
  revert s i En. induction n as [|n IH]; intros s i En Hp Hm Hc Hall.
  - cbn [replicate exec]. unfold step, mainStep. rewrite Hp, Hm, Hc.
    rewrite (lookup_ge_None_2 _ i) by lia. eexists. split; reflexivity.
  - cbn [replicate exec]. unfold step at 1, mainStep. rewrite Hp, Hm, Hc.
    destruct (lookup_lt_is_Some_2 (Config.Credentials cfg) i) as [cr Hcr]; [lia|].
    rewrite Hcr. rewrite (drop_S _ _ _ Hcr) in Hall. inversion Hall as [|? ? Hres Hall']; subst.
    destruct (rangeBody i (client s) cr) as [x [e|l]] eqn:Hr.
    + destruct (rangeBody_error _ _ _ _ _ Hr Hres).
    + apply rangeBody_client in Hr as (_ & _ & _ & _ & Ec).
      apply (IH _ (S i)); cbn; auto; try lia; try congruence.
Qed.

(** ** Credential sets behind one that does not resolve *)

Lemma loopPassed_earlier (j i : nat) (p : mainPC) :
  (j < i)%nat -> loopPassed i p -> loopPassed j p.
Proof. destruct p; cbn; auto; lia. Qed.

(** C9 fails on the code (same defect as C5: the loop sends a resolution
    error on the unbuffered [errChan] before anybody can receive it, and
    never gets past that send).  When a credential set does not resolve, then
    for a credential set behind it that does resolve, under every schedule
    the loop never reaches it, [connectWithAuth] never returns, and no
    attempt at all is started for it: whenever the enumeration for it is not
    empty, what was started differs from it. *)
Theorem unresolved_credentials_starve_later_ones (cfg : Config.t) (sched : list action)
    (j i : nat) (crj cr : Credentials.t) :
  Config.Credentials cfg !! j = Some crj -> ~ resolves crj ->
  (j < i)%nat ->
  Config.Credentials cfg !! i = Some cr -> resolves cr ->
  let s := run sched (initState cfg) in
  ~ loopPassed i (mainpc s)
  /\ (forall r, mainpc s <> MReturned r)
  /\ launchedFor i (pool s) = []
  /\ (enumeratedAttempts cfg cr <> [] -> launchedFor i (pool s) <> enumeratedAttempts cfg cr).
Proof.
  intros Hj Hnres Hji Hi Hres s.
  pose proof (LoopInv_run cfg sched) as L. fold s in L.
  assert (Hnj : ~ loopPassed j (mainpc s)).
  { intros Hp. destruct (loop_passed cfg s L j crj Hj Hp) as (R & _). contradiction. }
  assert (Hni : ~ loopPassed i (mainpc s)).
  { intros Hp. apply Hnj. eapply loopPassed_earlier; eauto. }
  assert (Hl : launchedFor i (pool s) = []).
  { apply launchedFor_none, Forall_forall. intros a Ha Ea.
    apply list_elem_of_lookup in Ha as (g & Ha).
    apply Hni. rewrite <- Ea. exact (loop_started cfg s L g a Ha). }
  split; [exact Hni|]. split; [|split; [exact Hl|]].
  - intros r Hr. apply Hni. rewrite Hr. exact Logic.I.
  - intros Hne. rewrite Hl. congruence.
Qed.

Lemma unresolved_credentials_starve_later_ones_witness :
  launchedFor 1 (pool (run starvedSchedule (initState starvedConfig))) = []
  /\ length (enumeratedAttempts starvedConfig exampleCredentials) = 4%nat.
Proof.
  split; [|reflexivity].
  refine (proj1 (proj2 (proj2
    (unresolved_credentials_starve_later_ones starvedConfig starvedSchedule 0 1
       brokenCredentials exampleCredentials eq_refl _ _ eq_refl _)))).
  - intros (H & _). discriminate H.
  - lia.
  - split; reflexivity.
Defined.

(** * Further properties of the package *)

(** ** CheckAndSetDefaults and New *)

(** X1.  [CheckAndSetDefaults] fails exactly when the configuration has no
    credentials; it then reports "missing connection credentials" and leaves
    the configuration as it was.  Otherwise it succeeds and never touches
    the addresses, the dialer, the credentials or the dial-block switch. *)
Theorem CheckAndSetDefaults_credentials (dflt : Defaults) (cfg : Config.t) :
  (Config.Credentials cfg = [] ->
     CheckAndSetDefaults dflt cfg
     = (Some (traceBadParameter "missing connection credentials"), cfg))
  /\ (Config.Credentials cfg <> [] ->
        let cfg' := snd (CheckAndSetDefaults dflt cfg) in
        fst (CheckAndSetDefaults dflt cfg) = None
        /\ Config.Addrs cfg' = Config.Addrs cfg
        /\ Config.Dialer cfg' = Config.Dialer cfg
        /\ Config.Credentials cfg' = Config.Credentials cfg
        /\ Config.WithoutDialBlock cfg' = Config.WithoutDialBlock cfg).
Proof.
  unfold CheckAndSetDefaults. split.
  - intros ->. reflexivity.
  - intros Hne. destruct (Config.Credentials cfg) as [|cr crs] eqn:E; [contradiction|].
    cbn [length Nat.eqb].
    destruct (Config.KeepAlivePeriod cfg =? 0); cbn;
      destruct (Config.KeepAliveCount cfg =? 0); cbn;
      destruct (Config.DialTimeout cfg =? 0); cbn; auto.
Qed.

(** X2.  [CheckAndSetDefaults] is idempotent: applied to the configuration it
    leaves behind, it returns the same error and changes nothing more. *)
Theorem CheckAndSetDefaults_idempotent (dflt : Defaults) (cfg : Config.t) :
  CheckAndSetDefaults dflt (snd (CheckAndSetDefaults dflt cfg))
  = CheckAndSetDefaults dflt cfg.
Proof.
  unfold CheckAndSetDefaults.
  destruct (Nat.eqb (length (Config.Credentials cfg)) 0) eqn:E; cbn [snd].
  - rewrite E. reflexivity.
  - destruct cfg as [addrs d dt kp kc creds wb]. cbn in *.
    destruct (Z.eqb_spec kp 0) as [->|Hkp]; cbn;
      destruct (Z.eqb_spec kc 0) as [->|Hkc]; cbn;
      destruct (Z.eqb_spec dt 0) as [->|Hdt]; cbn;
      rewrite ?E; cbn;
      repeat match goal with
             | |- context [?x =? 0] =>
                 destruct (Z.eqb_spec x 0); cbn; try contradiction; subst
             end;
      try reflexivity.
Qed.

(** X3.  With defaults that are not zero, a successful
    [CheckAndSetDefaults] leaves no zero in the keep-alive period, the
    keep-alive count and the dial timeout, and keeps each of the three that
    was not zero before. *)
Theorem CheckAndSetDefaults_fills_zeros (dflt : Defaults) (cfg : Config.t) :
  ServerKeepAliveTTL dflt <> 0 -> KeepAliveCountMax dflt <> 0 ->
  DefaultDialTimeout dflt <> 0 ->
  Config.Credentials cfg <> [] ->
  let cfg' := snd (CheckAndSetDefaults dflt cfg) in
  Config.KeepAlivePeriod cfg' <> 0 /\ Config.KeepAliveCount cfg' <> 0
  /\ Config.DialTimeout cfg' <> 0
  /\ (Config.KeepAlivePeriod cfg <> 0 -> Config.KeepAlivePeriod cfg' = Config.KeepAlivePeriod cfg)
  /\ (Config.KeepAliveCount cfg <> 0 -> Config.KeepAliveCount cfg' = Config.KeepAliveCount cfg)
  /\ (Config.DialTimeout cfg <> 0 -> Config.DialTimeout cfg' = Config.DialTimeout cfg).
Proof.
  intros H1 H2 H3 Hne. unfold CheckAndSetDefaults.
  destruct (Config.Credentials cfg) as [|cr crs] eqn:E; [contradiction|].
  cbn [length Nat.eqb].
  destruct (Z.eqb_spec (Config.KeepAlivePeriod cfg) 0); cbn;
    destruct (Z.eqb_spec (Config.KeepAliveCount cfg) 0); cbn;
    destruct (Z.eqb_spec (Config.DialTimeout cfg) 0); cbn;
    repeat split; auto; intros; congruence.
Qed.

Lemma CheckAndSetDefaults_fills_zeros_witness :
  let cfg' := snd (CheckAndSetDefaults exampleDefaults bareConfig) in
  Config.KeepAlivePeriod cfg' = 60 * time_Second
  /\ Config.KeepAliveCount cfg' = 3
  /\ Config.DialTimeout cfg' <> 0.
Proof.
  pose proof (CheckAndSetDefaults_fills_zeros exampleDefaults bareConfig) as H.
  split; [reflexivity|]. split; [reflexivity|].
  refine (proj1 (proj2 (proj2 (H _ _ _ _)))); discriminate.
Defined.

(** ** GetHTTPDialer *)

(** A call of [GetHTTPDialer] that returns a dialer without an error leaves
    that dialer in the configuration and changes nothing else. *)
Lemma GetHTTPDialer_sets_Dialer
    (nad : list string -> Duration -> Duration -> option ContextDialer * option error)
    (cfg cfg' : Config.t) (calls calls' : nat) (d : ContextDialer) :
  GetHTTPDialer nad cfg calls = ((Some d, None), cfg', calls') ->
  Config.Dialer cfg' = Some d /\ cfg' = set_Dialer (Some d) cfg.
Proof.
  unfold GetHTTPDialer, traceWrap. intros H.
  destruct (Config.Dialer cfg) as [d0|] eqn:Ed.
  - inversion H; subst. split; [exact Ed|].
    destruct cfg'; cbn in *. unfold set_Dialer; cbn. congruence.
  - destruct (nad _ _ _) as [d1 [e|]]; [discriminate H|].
    cbn in H. inversion H; subst. cbn. auto.
Qed.

(** X4.  Once [GetHTTPDialer] has returned a dialer without an error, every
    later call on the configuration it left behind returns that same dialer,
    does not call [NewAddrsDialer] (whatever it would answer) and leaves the
    configuration alone; the first call changed at most the [Dialer] field. *)
Theorem GetHTTPDialer_caches
    (nad nad' : list string -> Duration -> Duration -> option ContextDialer * option error)
    (cfg cfg' : Config.t) (calls calls' n : nat) (d : ContextDialer) :
  GetHTTPDialer nad cfg calls = ((Some d, None), cfg', calls') ->
  GetHTTPDialer nad' cfg' n = ((Some d, None), cfg', n)
  /\ Config.Dialer cfg' = Some d
  /\ cfg' = set_Dialer (Some d) cfg.
Proof.
  intros H. destruct (GetHTTPDialer_sets_Dialer nad cfg cfg' calls calls' d H) as (Ed & Ec).
  split; [|auto]. unfold GetHTTPDialer. rewrite Ed. reflexivity.
Qed.

Lemma GetHTTPDialer_caches_witness :
  GetHTTPDialer (fun _ _ _ => (None, Some (ExtErr "unreachable")))
    (set_Dialer (Some (CustomDialer "addrs")) exampleConfig) 1
  = ((Some (CustomDialer "addrs"), None),
     set_Dialer (Some (CustomDialer "addrs")) exampleConfig, 1%nat).
Proof.
  exact (proj1 (GetHTTPDialer_caches exampleAddrsDialer _ exampleConfig _ 0 1 1
                  (CustomDialer "addrs") eq_refl)).
Defined.

(** X5.  A configuration on which [GetHTTPDialer] has succeeded changes what
    [connectWithAuth] tries: for a credential set without a dialer of its
    own, once the loop has finished its iteration, exactly one attempt has
    been started, with the cached dialer against the fixed domain, and none
    against the configured addresses. *)
Theorem GetHTTPDialer_then_connect
    (nad : list string -> Duration -> Duration -> option ContextDialer * option error)
    (cfg cfg' : Config.t) (calls calls' : nat) (d : ContextDialer)
    (sched : list action) (i : nat) (cr : Credentials.t) (e : error) :
  GetHTTPDialer nad cfg calls = ((Some d, None), cfg', calls') ->
  Config.Credentials cfg' !! i = Some cr ->
  snd (Credentials.Dialer cr) = Some e ->
  loopPassed i (mainpc (run sched (initState cfg'))) ->
  launchedFor i (pool (run sched (initState cfg'))) = [(Some d, APIDomain)].
Proof.
  intros Hg Hcr Hd Hpass.
  destruct (GetHTTPDialer_sets_Dialer nad cfg cfg' calls calls' d Hg) as (Ed & _).
  destruct (loop_passed cfg' _ (LoopInv_run cfg' sched) i cr Hcr Hpass) as (_ & ->).
  unfold enumeratedAttempts. destruct (Credentials.Dialer cr) as [d0 [e0|]]; [|discriminate Hd].
  rewrite Ed. reflexivity.
Qed.

Lemma GetHTTPDialer_then_connect_witness :
  launchedFor 0 (pool (run [Main; Main]
                         (initState (set_Dialer (Some (CustomDialer "addrs")) exampleConfig))))
  = [(Some (CustomDialer "addrs"), APIDomain)].
Proof.
  refine (GetHTTPDialer_then_connect exampleAddrsDialer exampleConfig _ 0 1
            (CustomDialer "addrs") [Main; Main] 0 exampleCredentials (ExtErr "no dialer")
            eq_refl eq_refl eq_refl _).
  vm_compute. exact Logic.I.
Defined.

(** ** connectWithAuth: when it returns *)

(** X6.  [connectWithAuth] returns, with or without an error, only if every
    credential set of the configuration resolves its TLS and SSH configs: if
    one does not, no schedule makes the call return. *)
Theorem connectWithAuth_returns_only_if_all_resolve (cfg : Config.t)
    (sched : list action) (r : option error) :
  mainpc (run sched (initState cfg)) = MReturned r ->
  Forall resolves (Config.Credentials cfg).
Proof.
  intros Hm. apply Forall_lookup. intros i cr Hcr.
  destruct (loop_passed cfg _ (LoopInv_run cfg sched) i cr Hcr) as (Hres & _);
    [rewrite Hm; exact Logic.I|exact Hres].
Qed.

Lemma connectWithAuth_returns_only_if_all_resolve_witness :
  Forall resolves (Config.Credentials exampleConfig).
Proof.
  apply (connectWithAuth_returns_only_if_all_resolve exampleConfig idleSchedule
           (Some (WrapMsg DeadlineExceeded "all auth methods failed"))).
  reflexivity.
Defined.

Lemma exec_app (l1 l2 : list action) (s s1 : State) :
  exec l1 s = Some s1 -> exec (l1 ++ l2) s = exec l2 s1.
Proof.
  revert s. induction l1 as [|a l1 IH]; intros s H; cbn in *.
  - injection H as ->. reflexivity.
  - destruct (step a s); [auto|discriminate H].
Qed.

(** Steps of the loop alone start no panic and leave the collected errors,
    the clock and the deadline alone. *)
Lemma exec_Main_frame (n : nat) (s s' : State) :
  exec (replicate n Main) s = Some s' ->
  errs s' = errs s /\ panicked s' = panicked s
  /\ deadline s' = deadline s /\ now s' = now s.
Proof.
  revert s. induction n as [|n IH]; intros s H; cbn in H.
  - injection H as <-. auto.
  - destruct (step Main s) as [s1|] eqn:E; [|discriminate H].
    destruct (IH s1 H) as (I1 & I2 & I3 & I4).
    assert (F : errs s1 = errs s /\ panicked s1 = panicked s
                /\ deadline s1 = deadline s /\ now s1 = now s).
    { clear - E. step_cases E; simpl_state; cbn; auto. }
    destruct F as (F1 & F2 & F3 & F4). repeat split; congruence.
Qed.

(** X7.  When every credential set resolves, [connectWithAuth] can always
    return: if the caller alone runs and no attempt answers for a second, the
    loop ends, the timeout case is taken, and the timeout error wrapped as
    "all auth methods failed" is returned when the clock reads exactly one
    second. *)
Theorem connectWithAuth_times_out_alone (cfg : Config.t) :
  Forall resolves (Config.Credentials cfg) ->
  exists s,
    exec (replicate (S (length (Config.Credentials cfg))) Main ++ [Tick time_Second; SelectDone])
         (initState cfg) = Some s
    /\ mainpc s = MReturned (Some (WrapMsg DeadlineExceeded "all auth methods failed"))
    /\ now s = time_Second.
Proof.
  intros Hall.
  destruct (loop_runs_to_select cfg (initState cfg) 0) as (s1 & E1 & M1);
    try reflexivity; [rewrite drop_0; exact Hall|].
  rewrite Nat.sub_0_r in E1.
  destruct (exec_Main_frame _ _ _ E1) as (He & Hp & Hd & Hn).
  cbn in He, Hp, Hd, Hn.
  destruct (select_timeout_enabled s1 Hp M1) as (s2 & E2 & M2 & N2).
  rewrite Hd, Hn in E2, N2. rewrite He in M2.
  exists s2. rewrite (exec_app _ _ _ _ E1). split; [exact E2|]. split; [exact M2|].
  rewrite N2. reflexivity.
Qed.

Lemma connectWithAuth_times_out_alone_witness :
  exists s, exec idleSchedule (initState exampleConfig) = Some s /\ now s = time_Second.
Proof.
  destruct (connectWithAuth_times_out_alone exampleConfig) as (s & E & _ & N).
  - repeat constructor.
  - exists s. split; [exact E|exact N].
Defined.

Lemma step_win_flag (act : action) (s s' : State) :
  RaceInv s -> WinInv s -> step act s = Some s' ->
  forall g a, pool s' !! g = Some a -> claimedTheClient a ->
    Client.atomicFlag (client s') = openFlag.
Proof.
  intros I W H. pose proof (win_flag s W) as F. unfold claimedTheClient in *.
  step_cases H; intros g' a' Hl Hc; pool_cases Hl; try started_facts;
    simpl_state; simpl_attempt; try congruence; eauto.
  all: try (apply rangeBody_client in Heqp as (-> & _); eauto; fail).
  all: unfold derefC in *; destruct (cvar s) eqn:Ec; try discriminate; eauto;
    try (injection Heqo0 as <-);
    try (apply setOpen_inv in Heqp as [(_ & ? & ->)|(_ & ? & ->)]);
    cbn; eauto.
  all: destruct (inv_flag s I); congruence.
Qed.

Lemma step_win_installed (act : action) (s s' : State) :
  RaceInv s -> WinInv s -> step act s = Some s' ->
  forall g a, pool s' !! g = Some a -> claimedTheClient a ->
    (forall conn service, apc a <> PInstall conn service) ->
    Client.conn (client s') <> None.
Proof.
  intros I W H. pose proof (win_installed s W) as N. unfold claimedTheClient in *.
  step_cases H; intros g' a' Hl Hc Hp; pool_cases Hl; try started_facts;
    simpl_state; simpl_attempt; try congruence; eauto.
  all: try (apply rangeBody_client in Heqp as (_ & _ & -> & _); eauto; fail).
  all: try (exfalso; eapply Hp; reflexivity).
  all: try (match goal with
            | Hl : pool _ !! _ = Some ?a0, Hq : apc ?a0 = ?p |- _ =>
                assert (aclaim a0 = None) as Hnone
                  by (apply (inv_preclaim s I _ _ Hl); rewrite Hq; reflexivity);
                congruence
            end).
  all: unfold derefC in *; destruct (cvar s) eqn:Ec; try discriminate; eauto;
    try (injection Heqo0 as <-);
    try (apply setOpen_inv in Heqp as [(? & ? & ->)|(? & ? & ->)]);
    cbn; try discriminate; eauto.
  all: try (match goal with
            | Hl : pool _ !! _ = Some ?a0, Hq : apc ?a0 = _ |- _ =>
                apply (N _ _ Hl); [assumption|intros ? ?; rewrite Hq; discriminate]
            end).
  all: pose proof (inv_install s I _ _ _ _ Heqo Heqa0); congruence.
Qed.

Lemma lookup_writeC_forward (x : Client.t) (s : State) (g : nat) (a : Attempt) :
  pool s !! g = Some a ->
  exists a', pool (writeC x s) !! g = Some a' /\ aclaim a' = aclaim a /\ apc a' = apc a.
Proof.
  intros Ha. unfold writeC. destruct (cvar s) as [|g0|]; cbn; eauto.
  rewrite list_lookup_alter. case_decide; subst; rewrite ?Ha; cbn; eauto.
Qed.

Lemma step_win_returned (act : action) (s s' : State) :
  RaceInv s -> WinInv s -> step act s = Some s' ->
  mainpc s' = MReturned None ->
  exists g a, cvar s' = CopyOf g /\ pool s' !! g = Some a /\ claimedTheClient a
              /\ (apc a = PCloseChan \/ apc a = PReturned Won).
Proof.
  intros I W H. pose proof (win_returned s W) as R. unfold claimedTheClient in *.
  step_cases H; intros Hm; simpl_state; try discriminate Hm.
  1: { (* the caller receives the client of attempt g *)
    destruct (inv_running s I) as (Rc & _); [congruence|].
    exists g, (at_pc PCloseChan a). cbn. rewrite list_lookup_alter_eq, Heqo. cbn.
    repeat split; auto.
    destruct (inv_claims s I Rc _ _ Heqo) as [E|E]; [|exact E].
    destruct (inv_sender s I _ _ Heqo Heqa0 E). }
  1: { (* a receive on the closed channel: the channel is not closed while
          the caller is in select *)
    destruct (inv_running s I) as (_ & Rch & _); congruence. }
  all: try congruence.
  (* attempts that move after the caller has returned *)
  all: destruct (R Hm) as (g1 & a1 & Hc1 & Ha1 & Hcl1 & Hp1).
  all: try (exists g1, a1; cbn; auto; fail).
  all: destruct (decide (g = g1)) as [->|Hne];
    [same_lookup; try (exfalso; destruct Hp1; congruence)|].
  all: try (exists g1, a1; cbn [pool upd_attempt set_pool set_conns set_errs
                                  set_clientChanClosed];
            rewrite list_lookup_alter_ne by assumption; auto; fail).
  all: try (destruct (lookup_writeC_forward t0 s g1 a1 Ha1) as (a' & Ha' & Ec' & Ep');
            exists g1, a'; cbn [pool upd_attempt set_pool];
            rewrite list_lookup_alter_ne by assumption; rewrite Ec', Ep'; auto; fail).
  - destruct (lookup_writeC_forward
                (Client.with_grpc (Some service)
                   (Client.with_conn (Some conn) (Client.with_dialer (adialer a) t)))
                s g1 a1 Ha1) as (a' & Ha' & Ec' & Ep').
    exists g1, a'. cbn [pool upd_attempt set_pool].
    rewrite list_lookup_alter_ne by assumption. rewrite Ec', Ep'. auto.
  - exists g1, (at_pc (PReturned Won) a). cbn.
    rewrite list_lookup_alter_eq, Heqo. cbn. auto.
Qed.

Lemma WinInv_step (act : action) (s s' : State) :
  RaceInv s -> WinInv s -> step act s = Some s' -> WinInv s'.
Proof.
  intros I W H. constructor.
  - eapply step_win_flag; eauto.
  - eapply step_win_installed; eauto.
  - eapply step_win_returned; eauto.
Qed.

Lemma WinInv_run (cfg : Config.t) (sched : list action) :
  WinInv (run sched (initState cfg)).
Proof.
  apply (run_invariant (fun s => RaceInv s /\ WinInv s)).
  - intros act s1 s2 (I & W) H. split; [eapply RaceInv_step|eapply WinInv_step]; eauto.
  - split; [apply RaceInv_init|]. constructor; cbn; intros; discriminate.
Qed.

(** When [connectWithAuth] returns nil, the client [New] hands out is
    open and fully set up by the one attempt whose copy the caller received:
    its [dialer] is that attempt's dialer, its [conn] and the connection
    under its [grpc] handle were created by that attempt, and its [conn] has
    not been released. *)
Lemma returned_client_installed (cfg : Config.t) (sched : list action)
    (x : Client.t) :
  let s := run sched (initState cfg) in
  NewReturns s = Some (Some x, None) ->
  Client.atomicFlag x = openFlag
  /\ exists g a conn conn',
       cvar s = CopyOf g /\ pool s !! g = Some a /\ claimedTheClient a
       /\ Client.dialer x = adialer a
       /\ Client.conn x = Some conn
       /\ Client.grpc x = Some (NewAuthServiceClient conn')
       /\ openedBy s g conn /\ openedBy s g conn'
       /\ releasedCount (conns s) conn = O.
Proof.
  intros s Hret.
  pose proof (RaceInv_run cfg sched) as I. pose proof (WinInv_run cfg sched) as W.
  fold s in I, W. unfold NewReturns in Hret.
  destruct (mainpc s) as [| | |[e|]] eqn:Hm; try discriminate Hret.
  injection Hret as <-.
  destruct (win_returned s W Hm) as (g & a & Hc & Ha & Hcl & Hp).
  split; [exact (win_flag s W g a Ha Hcl)|].
  assert (Hconn : Client.conn (client s) <> None).
  { apply (win_installed s W g a Ha Hcl). intros c sv E. destruct Hp; congruence. }
  destruct (inv_installed s I) as [(_ & Hn & _)|(g' & a' & conn & conn' & Ha' & Hcl' & Hd & Hcn & Hg & Ho & Ho')];
    [contradiction|].
  assert (g' = g) as -> by (eapply (inv_unique s I); eauto).
  rewrite Ha in Ha'. injection Ha' as <-.
  exists g, a, conn, conn'. repeat split; auto.
  destruct Ho as (k & Hk & _). unfold releasedCount. rewrite Hk.
  exact (inv_unreleased s I _ _ Hk).
Qed.

(** X8.  When [connectWithAuth] returns nil, the client [New] hands out is
    open and fully set up by the one attempt whose copy the caller received:
    its [dialer] is that attempt's dialer, its [conn] and the connection
    under its [grpc] handle were created by that attempt, and its [conn] has
    not been released. *)
Theorem connectWithAuth_success_installs (cfg : Config.t) (sched : list action)
    (x : Client.t) :
  let s := run sched (initState cfg) in
  NewReturns s = Some (Some x, None) ->
  Client.atomicFlag x = openFlag
  /\ exists g a conn conn',
       cvar s = CopyOf g /\ pool s !! g = Some a /\ claimedTheClient a
       /\ Client.dialer x = adialer a
       /\ Client.conn x = Some conn
       /\ Client.grpc x = Some (NewAuthServiceClient conn')
       /\ openedBy s g conn /\ openedBy s g conn'
       /\ releasedCount (conns s) conn = O.
Proof. exact (returned_client_installed cfg sched x). Qed.

Lemma connectWithAuth_success_installs_witness :
  Client.atomicFlag (client (run loserSchedule (initState exampleConfig))) = openFlag.
Proof.
  refine (proj1 (connectWithAuth_success_installs exampleConfig loserSchedule
                   (client (run loserSchedule (initState exampleConfig))) _)).
  vm_compute. reflexivity.
Defined.

(** X9.  [Close] on the client of a successful [connectWithAuth] does not
    panic: it returns what releasing the installed connection answers,
    releases that connection (once) and no other, clears [conn], and leaves
    the client closed. *)
Theorem Close_after_connect (closeErr : grpc_ClientConn -> option error)
    (cfg : Config.t) (sched : list action) (x : Client.t) :
  let s := run sched (initState cfg) in
  NewReturns s = Some (Some x, None) ->
  exists h x' cs',
    Client.conn x = Some h
    /\ Close closeErr x (conns s) = (Returns (closeErr h), x', cs')
    /\ isClosed x' = true /\ Client.conn x' = None
    /\ releasedCount cs' h = 1%nat
    /\ (forall h', h' <> h -> cs' !! h' = conns s !! h').
Proof.
  intros s Hret.
  destruct (returned_client_installed cfg sched x Hret)
    as (Hf & g & a & conn & conn' & _ & _ & _ & _ & Hc & _ & (k & Hk & _) & _ & Hr).
  fold s in Hk, Hr. unfold releasedCount in Hr. rewrite Hk in Hr.
  exists conn. unfold Close. rewrite setClosed_spec, Hf. cbn. rewrite Hc.
  unfold connClose. rewrite Hk.
  eexists. eexists. split; [reflexivity|]. split; [reflexivity|].
  split; [reflexivity|]. split; [reflexivity|]. split.
  - unfold releasedCount. rewrite list_lookup_insert_eq by (eapply lookup_lt_Some; eauto).
    cbn. rewrite Hr. reflexivity.
  - intros h' Hne. apply list_lookup_insert_ne. auto.
Qed.

Lemma Close_after_connect_witness :
  exists h x' cs',
    Close exampleCloseErr (client (run loserSchedule (initState exampleConfig)))
          (conns (run loserSchedule (initState exampleConfig)))
    = (Returns (exampleCloseErr h), x', cs')
    /\ releasedCount cs' h = 1%nat.
Proof.
  assert (Hret : NewReturns (run loserSchedule (initState exampleConfig))
                 = Some (Some (client (run loserSchedule (initState exampleConfig))), None))
    by (vm_compute; reflexivity).
  destruct (Close_after_connect exampleCloseErr exampleConfig loserSchedule _ Hret)
    as (h & x' & cs' & _ & E & _ & _ & R & _).
  exists h, x', cs'. split; [exact E|exact R].
Defined.

(** ** The accessors after a race *)

Lemma rangeBody_configs (i : nat) (x x' : Client.t) (cr : Credentials.t)
    (l : list Attempt) :
  rangeBody i x cr = (x', inr l) -> configsOf cr x'.
Proof.
  unfold rangeBody, traceWrap, configsOf. intros H.
  destruct (Credentials.TLSConfig cr) as [tls [e|]]; [discriminate H|].
  destruct (Credentials.SSHConfig cr) as [ssh [e|]]; [discriminate H|].
  cbn in H. repeat (break_match H; try discriminate H); injection H as <- <-; cbn; auto.
Qed.

Lemma step_outside_loop_configs (act : action) (s s' : State) :
  act <> Main -> step act s = Some s' ->
  Client.tlsConfig (client s') = Client.tlsConfig (client s)
  /\ Client.sshConfig (client s') = Client.sshConfig (client s).
Proof.
  intros Hact H. step_cases H; try congruence; simpl_state; auto.
  all: unfold derefC in *; destruct (cvar s); auto;
    match goal with E : Some _ = Some _ |- _ => injection E as <- end;
    try (apply setOpen_inv in Heqp as [(_ & _ & ->)|(_ & _ & ->)]); auto.
Qed.

Lemma step_outside_loop_mainpc (act : action) (s s' : State) :
  act <> Main -> step act s = Some s' ->
  mainpc s' = mainpc s \/ (mainpc s = MSelect /\ exists r, mainpc s' = MReturned r).
Proof.
  intros Hact H. step_cases H; try congruence; simpl_state; eauto.
Qed.

Lemma ConfigsInv_step (cfg : Config.t) (act : action) (s s' : State) :
  ConfigsInv cfg s -> step act s = Some s' -> ConfigsInv cfg s'.
Proof.
  intros (Hc & Hm) H.
  assert (Hdec : act = Main \/ act <> Main) by (destruct act; auto; right; discriminate).
  destruct Hdec as [->|Hne].
  - unfold step in H. destruct (panicked s); [discriminate H|].
    unfold mainStep, sendErr in H.
    destruct (mainpc s) as [i|i e| |r] eqn:Em; try discriminate H.
    rewrite Hc in H.
    destruct (Config.Credentials cfg !! i) as [cr|] eqn:Hcr.
    + destruct (rangeBody i (client s) cr) as [x [e|l]] eqn:Hr; injection H as <-.
      * apply rangeBody_client in Hr as (_ & _ & _ & _ & Ec).
        split; cbn; [congruence|exact Logic.I].
      * pose proof (rangeBody_client _ _ _ _ _ Hr) as (_ & _ & _ & _ & Ec).
        split; cbn; [congruence|]. exists cr. split; [exact Hcr|].
        eapply rangeBody_configs; eauto.
    + injection H as <-. split; [exact Hc|]. cbn. intros cr Hlast.
      rewrite last_lookup in Hlast. apply lookup_ge_None in Hcr.
      destruct i as [|j].
      * destruct (Config.Credentials cfg); [discriminate Hlast|cbn in Hcr; lia].
      * destruct Hm as (cr' & Hj & Hcfg).
        pose proof (lookup_lt_Some _ _ _ Hj) as Hlt.
        replace (pred (length (Config.Credentials cfg))) with j in Hlast by lia.
        congruence.
  - destruct (step_outside_loop act s s' Hne H) as (Ec & _).
    destruct (step_outside_loop_configs act s s' Hne H) as (Et & Es).
    split; [congruence|].
    assert (Hcfg : forall cr, configsOf cr (client s) -> configsOf cr (client s')).
    { unfold configsOf. intros cr (? & ?). split; congruence. }
    destruct (step_outside_loop_mainpc act s s' Hne H) as [->|(Em & r & ->)].
    + destruct (mainpc s) as [[|j]|i e| |r]; auto.
      destruct Hm as (cr & ? & ?). eauto.
    + rewrite Em in Hm. auto.
Qed.

Lemma ConfigsInv_run (cfg : Config.t) (sched : list action) :
  ConfigsInv cfg (run sched (initState cfg)).
Proof.
  apply run_invariant; [apply ConfigsInv_step|]. split; [reflexivity|exact Logic.I].
Qed.

(** X11.  Once the loop over the credentials has ended, [Config()] returns
    the TLS config of the last credential set of the configuration (and
    [sshConfig] is that set's SSH config), whichever attempt wins.  It need
    not be the TLS config the installed connection was made with: in the run
    [firstWinsSchedule] the attempt of the first credential set wins and its
    connection uses the first TLS config, while [Config()] returns the
    second. *)
Theorem Config_is_last_credentials (cfg : Config.t) (sched : list action)
    (cr : Credentials.t) :
  (let s := run sched (initState cfg) in
   last (Config.Credentials cfg) = Some cr ->
   mainpc s = MSelect \/ (exists r, mainpc s = MReturned r) ->
   Client_Config (client s) = fst (Credentials.TLSConfig cr)
   /\ Client.sshConfig (client s) = fst (Credentials.SSHConfig cr))
  /\ exists s, exec firstWinsSchedule (initState twoCredentialsConfig) = Some s
       /\ mainpc s = MReturned None
       /\ Client_Config (client s) = Some (TLS "second")
       /\ Client_GetConnection (client s) = Some 0%nat
       /\ connTLS <$> conns s !! 0%nat = Some (Some (TLS "first")).
Proof.
  split.
  - intros s Hlast Hm. destruct (ConfigsInv_run cfg sched) as (_ & Hinv). fold s in Hinv.
    destruct Hm as [Hm|(r & Hm)]; rewrite Hm in Hinv; exact (Hinv cr Hlast).
  - eexists. split; [vm_compute; reflexivity|]. vm_compute. auto 10.
Qed.

(** ** setClientConn *)

Ltac setClientConn_cases :=
  unfold setClientConn, getClientConn, traceWrap, tunnelBranch;
  repeat match goal with
         | |- context [match ?x with _ => _ end] =>
             match x with
             | context [match _ with _ => _ end] => fail 1
             | _ => destruct x eqn:?
             end
         end.

(** X12.  Whatever the outside world answers, [setClientConn] only adds
    connections to the table, one or two of them when the first dial
    succeeds, and releases none: the connections it created stay open also
    when it returns an error; and when it returns an error the client is as
    it was. *)
Theorem setClientConn_error_leaves_client (x : Client.t) (d : option ContextDialer)
    (addr : string) (dial1 dial2 : option error) (ping1 ping2 : PingResponse * option error)
    (cs : list ClientConn) :
  let '(err, x', cs') := setClientConn x d addr dial1 ping1 dial2 ping2 cs in
  (err <> None -> x' = x)
  /\ exists new, cs' = cs ++ new
       /\ Forall (fun k => connReleased k = O /\ connTarget k = addr) new
       /\ (length new <= 2)%nat
       /\ (dial1 = None -> (1 <= length new)%nat)
       /\ (dial1 <> None -> new = [] /\ err = dial1).
Proof.
  setClientConn_cases; subst; cbn;
    (split; [try (intros _; reflexivity); try (intros E; contradiction)|]).
  all: try (eexists []; rewrite app_nil_r; repeat split; auto; try lia; try congruence; fail).
  all: try (eexists [_]; repeat split; [repeat constructor; auto|cbn; lia|cbn; lia|congruence..]; fail).
  all: try (eexists [_; _]; rewrite <- app_assoc; repeat split;
            [repeat constructor; auto|cbn; lia|cbn; lia|congruence..]; fail).
Qed.

(** X13.  When [setClientConn] returns nil: on a client whose flag is unset
    the client becomes open, with the given dialer, with the first connection
    created as [conn], also when a second one was dialed through the tunnel
    dialer, and with [grpc] over the last connection created; on a client
    whose flag is not unset (open or closed already) nothing is assigned,
    although connections were created. *)
Theorem setClientConn_success (x : Client.t) (d : option ContextDialer)
    (addr : string) (dial1 dial2 : option error) (ping1 ping2 : PingResponse * option error)
    (cs : list ClientConn) :
  let '(err, x', cs') := setClientConn x d addr dial1 ping1 dial2 ping2 cs in
  err = None ->
  (length cs < length cs')%nat
  /\ (Client.atomicFlag x = unsetFlag ->
        Client.atomicFlag x' = openFlag
        /\ Client.dialer x' = d
        /\ Client.conn x' = Some (length cs)
        /\ Client.grpc x' = Some (NewAuthServiceClient (pred (length cs'))))
  /\ (Client.atomicFlag x <> unsetFlag -> x' = x).
Proof.
  setClientConn_cases; subst; cbn; intros E; try discriminate E;
    repeat match goal with
           | H : setOpen _ = _ |- _ =>
               apply setOpen_inv in H as [(? & ? & ->)|(? & ? & ->)]; try discriminate
           end;
    rewrite ?length_app; cbn; (split; [lia|]);
    (split; [intros Hf; try contradiction|intros Hf; try contradiction; try reflexivity]).
  all: repeat split; try reflexivity.
  all: repeat f_equal; lia.
Qed.

(** ** The copies of the client *)

Lemma pool_writeC_copy (x : Client.t) (s : State) (g : nat) (a' : Attempt) :
  pool (writeC x s) !! g = Some a' ->
  exists a, pool s !! g = Some a
            /\ (a' = a \/ (cvar s = CopyOf g /\ a' = with_clt x a)).
Proof.
  unfold writeC. destruct (cvar s) as [|g0|]; cbn; eauto.
  intros H. apply lookup_alter_inv in H as (a & Ha & [(-> & ->)|(_ & ->)]); eauto.
Qed.

Lemma rangeBody_started_clt (i : nat) (x x' : Client.t) (cr : Credentials.t)
    (l : list Attempt) (a : Attempt) :
  rangeBody i x cr = (x', inr l) -> a ∈ l -> clt a = x'.
Proof.
  unfold rangeBody, traceWrap. intros H Ha.
  repeat (break_match H; try discriminate H); injection H as <- <-;
    rewrite ?elem_of_app, ?elem_of_cons, ?list_elem_of_fmap, ?elem_of_nil in Ha;
    repeat match goal with
           | H : _ \/ _ |- _ => destruct H
           | H : exists _, _ |- _ => destruct H as (? & -> & ?)
           | H : False |- _ => destruct H
           end; subst; reflexivity.
Qed.

Ltac pool_cases_copy H :=
  cbn [pool upd_attempt set_pool set_client set_mainpc set_cvar set_errs set_conns
       set_clientChanClosed set_panicked set_now] in H;
  repeat first
    [ apply lookup_alter_inv in H as (? & H & [(-> & ->)|(? & ->)])
    | apply pool_writeC_copy in H as (? & H & [->|(? & ->)])
    | apply lookup_app_Some in H as [H|(? & H)] ].

(** The client [c] points to, when it is a copy. *)
Ltac deref_copy :=
  match goal with
  | Hd : derefC ?s = Some ?t, Hc : cvar ?s = CopyOf ?g, Ha : pool ?s !! ?g = Some ?a |- _ =>
      unfold derefC in Hd; rewrite Hc, Ha in Hd; cbn in Hd; injection Hd as <-
  end.

Lemma CopyInv_step (cfg : Config.t) (act : action) (s s' : State) :
  CopyInv cfg s -> step act s = Some s' -> CopyInv cfg s'.
Proof.
  intros (Hc & Hp) H. split.
  - assert (Hdec : act = Main \/ act <> Main) by (destruct act; auto; right; discriminate).
    destruct Hdec as [->|Hne].
    + step_cases H; simpl_state; auto;
        apply rangeBody_client in Heqp as (_ & _ & _ & _ & ->); exact Hc.
    + destruct (step_outside_loop act s s' Hne H) as (-> & _). exact Hc.
  - step_cases H; intros g' a' Hl; pool_cases_copy Hl;
      simpl_state; simpl_attempt; eauto.
    + (* a goroutine just started *)
      assert (Ha' : a' ∈ l) by (apply list_elem_of_lookup; eauto).
      destruct (rangeBody_started _ _ _ _ _ a' Heqp Ha') as (_ & _ & ->).
      rewrite (rangeBody_started_clt _ _ _ _ _ a' Heqp Ha').
      exists t. rewrite Hc in Heqo. split; [exact Heqo|].
      split; [|eapply rangeBody_configs; eauto].
      apply rangeBody_client in Heqp as (_ & _ & _ & _ & ->). exact Hc.
    + deref_copy. apply setOpen_inv in Heqp as [(_ & _ & ->)|(_ & _ & ->)]; cbn; eauto.
    + deref_copy. apply setOpen_inv in Heqp as [(_ & _ & ->)|(_ & _ & ->)]; cbn; eauto.
    + deref_copy. apply setOpen_inv in Heqp as [(_ & _ & ->)|(_ & _ & ->)]; cbn; eauto.
    + deref_copy. apply setOpen_inv in Heqp as [(_ & _ & ->)|(_ & _ & ->)]; cbn; eauto.
    + deref_copy. cbn. eauto.
    + deref_copy. cbn. eauto.
Qed.

Lemma lookup_writeC_acred (x : Client.t) (s : State) (g : nat) (a : Attempt) :
  pool s !! g = Some a ->
  exists a', pool (writeC x s) !! g = Some a' /\ acred a' = acred a.
Proof.
  intros Ha. unfold writeC. destruct (cvar s) as [|g0|]; cbn; eauto.
  rewrite list_lookup_alter. case_decide; subst; rewrite ?Ha; cbn; eauto.
Qed.

(** An attempt stays in the pool, for the same credential set. *)
Lemma step_pool_forward (act : action) (s s' : State) (g : nat) (a : Attempt) :
  step act s = Some s' -> pool s !! g = Some a ->
  exists a', pool s' !! g = Some a' /\ acred a' = acred a.
Proof.
  intros H Ha. step_cases H;
    cbn [pool upd_attempt set_pool set_client set_mainpc set_cvar set_errs set_conns
         set_clientChanClosed set_panicked set_now];
    eauto using lookup_app_l_Some.
  all: try (rewrite list_lookup_alter; case_decide; subst; rewrite ?Ha; cbn; eauto; fail).
  all: match goal with
       | |- context [writeC ?x ?s0] =>
           destruct (lookup_writeC_acred x s0 g a Ha) as (a1 & Ha1 & E1)
       end;
    rewrite list_lookup_alter; case_decide; subst; rewrite ?Ha1; cbn; eauto.
Qed.

Lemma ConnInv_step (cfg : Config.t) (act : action) (s s' : State) :
  CopyInv cfg s -> ConnInv cfg s -> step act s = Some s' -> ConnInv cfg s'.
Proof.
  intros (_ & Hp) Hk H h k Hl.
  assert (Old : forall k0, (exists a cr, pool s !! connOpenedBy k0 = Some a
                               /\ Config.Credentials cfg !! acred a = Some cr
                               /\ connTLS k0 = fst (Credentials.TLSConfig cr)) ->
                exists a cr, pool s' !! connOpenedBy k0 = Some a
                             /\ Config.Credentials cfg !! acred a = Some cr
                             /\ connTLS k0 = fst (Credentials.TLSConfig cr)).
  { intros k0 (a & cr & Ha & Hcr & Ht).
    destruct (step_pool_forward act s s' _ a H Ha) as (a' & Ha' & E).
    exists a', cr. rewrite E. auto. }
  assert (New : forall g a k0, pool s !! g = Some a -> connOpenedBy k0 = g ->
                  connTLS k0 = Client.tlsConfig (clt a) ->
                  exists a cr, pool s' !! connOpenedBy k0 = Some a
                               /\ Config.Credentials cfg !! acred a = Some cr
                               /\ connTLS k0 = fst (Credentials.TLSConfig cr)).
  { intros g a k0 Ha Hg Ht. apply Old.
    destruct (Hp g a Ha) as (cr & Hcr & _ & (Htls & _)).
    exists a, cr. rewrite Hg, Ht. auto. }
  clear Hp. revert Hl. step_cases H; simpl_state; intros Hl; try (apply Old; eauto; fail).
  all: apply lookup_app_Some in Hl as [Hl|(_ & Hl)]; [apply Old; eauto|].
  all: apply list_lookup_singleton_Some in Hl as (_ & <-).
  all: eapply New; eauto.
Qed.

Lemma NoTunnelInv_step (act : action) (s s' : State) :
  NoTunnelInv s -> step act s = Some s' -> NoTunnelInv s'.
Proof.
  intros N H. unfold NoTunnelInv in *.
  step_cases H; intros g' a' Hl Hs; pool_cases_copy Hl; try started_facts;
    simpl_state; simpl_attempt; eauto;
    try (match goal with F : apc a' = PDial |- _ => rewrite F; exact Logic.I end);
    try exact Logic.I; try reflexivity.
  all: try deref_copy.
  all: try (apply setOpen_inv in Heqp as [(_ & _ & ->)|(_ & _ & ->)]).
  all: cbn in Hs.
  all: try (match goal with
            | Hl : pool _ !! _ = Some ?a0, Hq : apc ?a0 = _ |- _ =>
                let Hn := fresh "Hn" in
                pose proof (N _ _ Hl Hs) as Hn; rewrite Hq in Hn; cbn in Hn;
                first [contradiction|exact Hn|subst; reflexivity]
            end).
  all: try (eapply N; eauto; fail).
  all: try (unfold tunnelBranch in *; rewrite Hs in *;
            repeat (match goal with
                    | H : context [if ?b then _ else _] |- _ => destruct b
                    end); discriminate).
Qed.

Lemma copy_conn_run (cfg : Config.t) (sched : list action) :
  CopyInv cfg (run sched (initState cfg)) /\ ConnInv cfg (run sched (initState cfg)).
Proof.
  apply (run_invariant (fun s => CopyInv cfg s /\ ConnInv cfg s)).
  - intros act s1 s2 (C & K) H. split; [eapply CopyInv_step|eapply ConnInv_step]; eauto.
  - split; [split; [reflexivity|]|]; intros ? ? H; discriminate H.
Qed.

Lemma NoTunnelInv_run (cfg : Config.t) (sched : list action) :
  NoTunnelInv (run sched (initState cfg)).
Proof.
  apply run_invariant; [apply NoTunnelInv_step|]. intros g a H. discriminate H.
Qed.

(** X14.  Every connection created during a race was made with the TLS
    config of the credential set its attempt was started for, whatever the
    loop has written to the client since: the attempts work on their own
    copies of the client. *)
Theorem connections_use_own_credentials (cfg : Config.t) (sched : list action)
    (h : grpc_ClientConn) (k : ClientConn) :
  let s := run sched (initState cfg) in
  conns s !! h = Some k ->
  exists a cr, pool s !! connOpenedBy k = Some a
               /\ Config.Credentials cfg !! acred a = Some cr
               /\ connTLS k = fst (Credentials.TLSConfig cr)
               /\ Client.tlsConfig (clt a) = fst (Credentials.TLSConfig cr).
Proof.
  intros s Hk. destruct (copy_conn_run cfg sched) as ((_ & C) & K). fold s in C, K.
  destruct (K h k Hk) as (a & cr & Ha & Hcr & Ht).
  exists a, cr. repeat split; auto.
  destruct (C _ a Ha) as (cr' & Hcr' & _ & (E & _)). congruence.
Qed.

Lemma connections_use_own_credentials_witness :
  exists a cr,
    pool (run firstWinsSchedule (initState twoCredentialsConfig)) !! 0%nat = Some a
    /\ Config.Credentials twoCredentialsConfig !! acred a = Some cr
    /\ Some (TLS "first") = fst (Credentials.TLSConfig cr).
Proof.
  assert (Hk : conns (run firstWinsSchedule (initState twoCredentialsConfig)) !! 0%nat
               = Some {| connDialer := Some (NewDialer (60 * time_Second) (30 * time_Second));
                         connTarget := "auth.example.com:3025";
                         connTLS := Some (TLS "first");
                         connOpenedBy := 0; connReleased := 0 |})
    by (vm_compute; reflexivity).
  destruct (connections_use_own_credentials twoCredentialsConfig firstWinsSchedule _ _ Hk)
    as (a & cr & Ha & Hcr & Ht & _).
  exists a, cr. auto.
Defined.

(** X15.  An attempt started for a credential set without an SSH config never
    enters the tunnel branch, whatever the Ping answer advertises: it is
    never about to dial or ping a second connection, and when it claims and
    installs, its service handle is over the connection it dialed first. *)
Theorem no_tunnel_without_sshConfig (cfg : Config.t) (sched : list action)
    (g : nat) (a : Attempt) (cr : Credentials.t) :
  let s := run sched (initState cfg) in
  pool s !! g = Some a ->
  Config.Credentials cfg !! acred a = Some cr ->
  fst (Credentials.SSHConfig cr) = None ->
  noTunnel (apc a).
Proof.
  intros s Ha Hcr Hs. destruct (copy_conn_run cfg sched) as ((_ & C) & _). fold s in C.
  destruct (C g a Ha) as (cr' & Hcr' & _ & (_ & E)).
  apply (NoTunnelInv_run cfg sched g a Ha). congruence.
Qed.

Lemma no_tunnel_without_sshConfig_witness :
  exists a,
    pool (run advertisedWithoutSshSchedule (initState twoCredentialsConfig)) !! 0%nat = Some a
    /\ apc a = PSetOpen 0%nat (NewAuthServiceClient 0%nat)
    /\ noTunnel (apc a).
Proof.
  eexists. split; [vm_compute; reflexivity|]. split; [reflexivity|].
  eapply (no_tunnel_without_sshConfig twoCredentialsConfig advertisedWithoutSshSchedule 0).
  - vm_compute. reflexivity.
  - vm_compute. reflexivity.
  - reflexivity.
Defined.

Lemma setClientConn_success_witness :
  let '(err, x', cs') :=
    setClientConn resolvedClient (Some (CustomDialer "direct")) "proxy.example.com:443"
      None (proxyPing, None) None (plainPing, None) [] in
  Client.atomicFlag x' = openFlag /\ Client.conn x' = Some 0%nat
  /\ Client.grpc x' = Some (NewAuthServiceClient 1%nat).
Proof.
  pose proof (setClientConn_success resolvedClient (Some (CustomDialer "direct"))
                "proxy.example.com:443" None None (proxyPing, None) (plainPing, None) []) as H.
  vm_compute in H. vm_compute.
  destruct (H eq_refl) as (_ & H1 & _). destruct (H1 eq_refl) as (F & _ & C & G). auto.
Defined.

(** ** The lifecycle of a fresh client, seen through its dialer *)

Lemma isClosed_from_open (ops : list flagOp) (x : Client.t) :
  Client.atomicFlag x = openFlag ->
  (isClosed (applyOps ops x) = true <-> In OpSetClosed ops).
Proof.
  revert x. induction ops as [|o ops IH]; intros x Hx.
  - cbn. unfold isClosed, loadInt32. rewrite Hx. split; [discriminate|tauto].
  - cbn [applyOps]. destruct o; cbn [applyOp].
    + rewrite setOpen_spec, Hx. cbn [snd]. change (openFlag =? unsetFlag) with false.
      cbn [snd]. rewrite (IH x Hx). cbn. intuition discriminate.
    + rewrite setClosed_spec, Hx, Z.eqb_refl. cbn [snd]. split; [cbn; auto|intros _].
      unfold isClosed, loadInt32. rewrite closed_is_final; reflexivity.
    + cbn [snd]. rewrite (IH x Hx). cbn. intuition discriminate.
Qed.

Lemma isClosed_from_unset (ops : list flagOp) (x : Client.t) :
  Client.atomicFlag x = unsetFlag ->
  (isClosed (applyOps ops x) = true <-> openedThenClosed ops).
Proof.
  revert x. induction ops as [|o ops IH]; intros x Hx.
  - cbn. unfold isClosed, loadInt32. rewrite Hx. split; [discriminate|].
    intros (l1 & l2 & l3 & E). destruct l1; discriminate E.
  - cbn [applyOps]. destruct o; cbn [applyOp].
    + rewrite setOpen_spec, Hx, Z.eqb_refl. cbn [snd].
      rewrite isClosed_from_open by reflexivity. split.
      * intros Hin. apply in_split in Hin as (l2 & l3 & ->). exists [], l2, l3. reflexivity.
      * intros (l1 & l2 & l3 & E). destruct l1 as [|o l1]; cbn in E; injection E.
        -- intros ->. apply in_or_app. right. left. reflexivity.
        -- intros -> _. apply in_or_app. right. right. apply in_or_app. right. left. reflexivity.
    + rewrite setClosed_spec, Hx. change (unsetFlag =? openFlag) with false. cbn [snd].
      rewrite (IH x Hx). split; intros (l1 & l2 & l3 & E).
      * exists (OpSetClosed :: l1), l2, l3. rewrite E. reflexivity.
      * destruct l1 as [|o l1]; cbn in E; [discriminate E|]. injection E as _ E. eexists _, _, _. eauto.
    + cbn [snd]. rewrite (IH x Hx). split; intros (l1 & l2 & l3 & E).
      * exists (OpIsClosed :: l1), l2, l3. rewrite E. reflexivity.
      * destruct l1 as [|o l1]; cbn in E; [discriminate E|]. injection E as _ E. eexists _, _, _. eauto.
Qed.

(** X16.  For a client made by [New] and any history of [setOpen],
    [setClosed] and [isClosed] on it: the wrapped dialer refuses to dial
    exactly when the history holds a [setOpen] followed later by a
    [setClosed]; in every other case it calls the underlying dialer once,
    for network "tcp" and the address it was given, and hands back the
    dialer's connection, or a connection problem carrying the dialer's error
    and no connection. *)
Theorem wrapped_dialer_follows_lifecycle
    (answer : ContextDialer -> string -> string -> option net_Conn * option error)
    (errText : error -> string) (cfg : Config.t) (ops : list flagOp)
    (d : ContextDialer) (addr : string) (log : list DialCall) :
  let x := applyOps ops (newClient cfg) in
  (openedThenClosed ops ->
     grpcDialer answer errText x d addr log
     = ((None, Some (ConnectionProblem None "client is closed")), log))
  /\ (~ openedThenClosed ops ->
        snd (grpcDialer answer errText x d addr log)
        = log ++ [{| callDialer := d; callNetwork := "tcp"; callAddr := addr |}]
        /\ fst (grpcDialer answer errText x d addr log)
           = match answer d "tcp" addr with
             | (_, Some e) => (None, Some (ConnectionProblem (Some e) (errText e)))
             | (conn, None) => (conn, None)
             end).
Proof.
  intros x. pose proof (isClosed_from_unset ops (newClient cfg) eq_refl) as Hiff.
  fold x in Hiff. unfold grpcDialer, DialContext. split.
  - intros Hoc. apply Hiff in Hoc. rewrite Hoc. reflexivity.
  - intros Hno. destruct (isClosed x) eqn:E; [destruct Hno; apply Hiff; reflexivity|].
    destruct (answer d "tcp" addr) as [conn [e|]]; auto.
Qed.

(** * The wrappers of the connections and the dialers behind them *)

(** ** The flags of the copies *)

(** Nothing in the race closes a client: the compare-and-swap of [setOpen]
    is the only write to a flag. *)
Lemma FlagInv_step (act : action) (s s' : State) :
  FlagInv s -> step act s = Some s' -> FlagInv s'.
Proof.
  intros (Hc & Hp) H. unfold FlagInv, notClosed in *. split.
  - step_cases H; simpl_state; auto.
    all: try (apply rangeBody_client in Heqp as (-> & _); exact Hc).
    all: unfold derefC in *; destruct (cvar s) eqn:Ec; auto.
    all: try (injection Heqo0 as <-).
    all: try (apply setOpen_inv in Heqp as [(_ & _ & ->)|(_ & _ & ->)]); cbn; auto.
  - step_cases H; intros g' a' Hl; pool_cases_copy Hl; simpl_state; simpl_attempt; eauto.
    all: try deref_copy.
    all: try (apply setOpen_inv in Heqp as [(_ & _ & ->)|(_ & _ & ->)]); cbn; eauto.
    (* a goroutine just started holds a copy of the client *)
    rewrite (rangeBody_started_clt _ _ _ _ _ a' Heqp)
      by (apply list_elem_of_lookup; eauto).
    apply rangeBody_client in Heqp as (-> & _). exact Hc.
Qed.

Lemma FlagInv_run (cfg : Config.t) (sched : list action) :
  FlagInv (run sched (initState cfg)).
Proof.
  apply run_invariant; [apply FlagInv_step|].
  split; [left; reflexivity|intros g a H; discriminate H].
Qed.

Lemma notClosed_isClosed (x : Client.t) : notClosed x -> isClosed x = false.
Proof. unfold isClosed, loadInt32. intros [-> | ->]; reflexivity. Qed.

(** What the wrapper of a connection does when the copy it reads is not
    closed: it calls the underlying dialer, or panics when there is none. *)
Lemma connWrapper_not_closed
    (answer : ContextDialer -> string -> string -> option net_Conn * option error)
    (errText : error -> string) (s : State) (h : grpc_ClientConn) (k : ClientConn)
    (a : Attempt) (addr : string) (log : list DialCall) :
  conns s !! h = Some k -> pool s !! connOpenedBy k = Some a -> notClosed (clt a) ->
  connWrapper answer errText s h addr log
  = Some match connDialer k with
         | Some d => WrapperReturns (dialThrough answer errText d addr) (log ++ [tcpCall d addr])
         | None => WrapperPanics
         end.
Proof.
  intros Hk Ha Hn. unfold connWrapper, grpcDialer, DialContext, dialThrough, tcpCall.
  rewrite Hk, Ha, (notClosed_isClosed _ Hn).
  destruct (connDialer k) as [d|]; [|reflexivity].
  destruct (answer d "tcp"%string addr) as [conn [e|]]; reflexivity.
Qed.


(** [Close] on the client of a successful [connectWithAuth], spelled out. *)
Lemma Close_returned_client (closeErr : grpc_ClientConn -> option error)
    (cfg : Config.t) (sched : list action) (x : Client.t) :
  let s := run sched (initState cfg) in
  NewReturns s = Some (Some x, None) ->
  x = client s
  /\ exists h k, Client.conn x = Some h /\ conns s !! h = Some k
     /\ closeClient closeErr s
        = (Returns (closeErr h),
           set_conns (<[h := release k]> (conns s))
             (set_client (Client.with_conn None (Client.with_atomicFlag closedFlag x)) s)).
Proof.
  intros s Hret.
  destruct (returned_client_installed cfg sched x Hret)
    as (Hf & g & a & conn & conn' & _ & _ & _ & _ & Hc & _ & (k & Hk & _) & _ & _).
  fold s in Hk.
  assert (Hx : x = client s).
  { unfold NewReturns in Hret. destruct (mainpc s) as [| | |[e|]]; try discriminate Hret.
    injection Hret as <-. reflexivity. }
  split; [exact Hx|]. exists conn, k. split; [exact Hc|]. split; [exact Hk|].
  unfold closeClient, Close. rewrite <- Hx, setClosed_spec, Hf. cbn. rewrite Hc.
  unfold connClose. rewrite Hk. reflexivity.
Qed.

(** ** Dials after Close *)

(** C8 fails on the code.  Whatever race made [connectWithAuth] return nil,
    once [Close] has run on the client that [New] returned that client is
    closed, and a wrapper built on it would refuse every dial; but the
    wrapper of every connection made in the race, the installed one
    included, was built on the copy [clt] of the attempt that made the
    connection ([clt.getClientConn]), and [Close] does not reach the copies:
    called after [Close], each of these wrappers still calls [DialContext]
    on its underlying dialer (the call is logged) and hands back what the
    dialer answers, or panics when the dialer is nil.  None fails fast with
    "client is closed". *)
Theorem dial_after_Close_reaches_dialer
    (closeErr : grpc_ClientConn -> option error)
    (answer : ContextDialer -> string -> string -> option net_Conn * option error)
    (errText : error -> string) (cfg : Config.t) (sched : list action) (x : Client.t) :
  let s := run sched (initState cfg) in
  NewReturns s = Some (Some x, None) ->
  let s' := snd (closeClient closeErr s) in
  isClosed (client s') = true
  /\ (forall d addr log,
        grpcDialer answer errText (client s') d addr log
        = ((None, Some (ConnectionProblem None "client is closed")), log))
  /\ (exists h, Client.conn x = Some h /\ is_Some (conns s' !! h))
  /\ (forall h k addr log, conns s' !! h = Some k ->
        connWrapper answer errText s' h addr log
        = Some match connDialer k with
               | Some d => WrapperReturns (dialThrough answer errText d addr)
                                          (log ++ [tcpCall d addr])
               | None => WrapperPanics
               end).
Proof.
  intros s Hret s'.
  destruct (Close_returned_client closeErr cfg sched x Hret)
    as (Hx & h0 & k0 & Hc & Hk0 & E).
  fold s in Hx, Hk0, E. subst s'. rewrite E. cbn [snd client conns set_conns set_client].
  split; [reflexivity|]. split; [intros d addr log; reflexivity|]. split.
  - exists h0. split; [exact Hc|].
    rewrite list_lookup_insert_eq by (eapply lookup_lt_Some; eauto). eauto.
  - intros h k addr log Hk.
    assert (Hold : exists k1, conns s !! h = Some k1 /\ connDialer k = connDialer k1
                              /\ connOpenedBy k = connOpenedBy k1).
    { destruct (decide (h = h0)) as [->|Hne].
      - rewrite list_lookup_insert_eq in Hk by (eapply lookup_lt_Some; eauto).
        injection Hk as <-. exists k0. auto.
      - rewrite list_lookup_insert_ne in Hk by auto. exists k. auto. }
    destruct Hold as (k1 & Hk1 & Ed & Eo).
    destruct (copy_conn_run cfg sched) as (_ & K). fold s in K.
    destruct (K h k1 Hk1) as (a & _ & Ha & _).
    apply (connWrapper_not_closed _ _ _ h k a).
    + exact Hk.
    + cbn. rewrite Eo. exact Ha.
    + exact (proj2 (FlagInv_run cfg sched) _ a Ha).
Qed.

Lemma dial_after_Close_reaches_dialer_witness :
  let s' := snd (closeClient exampleCloseErr (run loserSchedule (initState exampleConfig))) in
  isClosed (client s') = true
  /\ connWrapper exampleAnswer exampleErrText s' 0%nat "proxy.example.com:443" []
     = Some (WrapperReturns (Some (NetConn 7), None)
               [tcpCall (NewDialer (60 * time_Second) (30 * time_Second))
                        "proxy.example.com:443"])
  /\ connWrapper exampleAnswer exampleErrText s' 1%nat "auth.example.com:3025" []
     = Some (WrapperReturns (Some (NetConn 7), None)
               [tcpCall (NewDialer (60 * time_Second) (30 * time_Second))
                        "auth.example.com:3025"]).
Proof.
  assert (Hret : NewReturns (run loserSchedule (initState exampleConfig))
                 = Some (Some (client (run loserSchedule (initState exampleConfig))), None))
    by (vm_compute; reflexivity).
  destruct (dial_after_Close_reaches_dialer exampleCloseErr exampleAnswer exampleErrText
              exampleConfig loserSchedule _ Hret) as (H1 & _ & _ & H4).
  split; [exact H1|]. split.
  - rewrite (H4 0%nat {| connDialer := Some (NewDialer (60 * time_Second) (30 * time_Second));
                         connTarget := "proxy.example.com:443";
                         connTLS := Some (TLS "identity");
                         connOpenedBy := 0; connReleased := 1 |})
      by (vm_compute; reflexivity).
    reflexivity.
  - rewrite (H4 1%nat {| connDialer := Some (NewDialer (60 * time_Second) (30 * time_Second));
                         connTarget := "auth.example.com:3025";
                         connTLS := Some (TLS "identity");
                         connOpenedBy := 1; connReleased := 0 |})
      by (vm_compute; reflexivity).
    reflexivity.
Defined.

(** ** The enumeration of attempts, once the loop gets there *)

(** As long as the credential sets resolve, the loop alone runs on. *)
Lemma loop_runs_on (cfg : Config.t) (n : nat) (s : State) (i : nat) :
  panicked s = false -> mainpc s = MRange i -> Client.c (client s) = cfg ->
  (i + n <= length (Config.Credentials cfg))%nat ->
  Forall resolves (take n (drop i (Config.Credentials cfg))) ->
  exists s', exec (replicate n Main) s = Some s' /\ mainpc s' = MRange (i + n).
Proof.
  revert s i. induction n as [|n IH]; intros s i Hp Hm Hc Hlen Hall.
  - exists s. rewrite Nat.add_0_r. auto.
  - cbn [replicate exec]. unfold step at 1, mainStep. rewrite Hp, Hm, Hc.
    destruct (lookup_lt_is_Some_2 (Config.Credentials cfg) i) as [cr Hcr]; [lia|].
    rewrite Hcr. rewrite (drop_S _ _ _ Hcr) in Hall. cbn [take] in Hall.
    inversion Hall as [|? ? Hres Hall']; subst.
    destruct (rangeBody i (client s) cr) as [x [e|l]] eqn:Hr.
    + destruct (rangeBody_error _ _ _ _ _ Hr Hres).
    + apply rangeBody_client in Hr as (_ & _ & _ & _ & Ec).
      destruct (IH (set_mainpc (MRange (S i)) (set_pool (pool s ++ l) (set_client x s))) (S i))
        as (s' & E & M); cbn; auto; try lia; try congruence.
      exists s'. split; [exact E|]. rewrite M. f_equal. lia.
Qed.

(** X17.  For a credential set that resolves: once the loop has finished its
    iteration, whatever has happened since, the attempts started for it are
    exactly the enumerated ones, in order (with a dialer of its own, the one
    attempt with that dialer against the fixed domain; else with a dialer in
    the configuration, the one attempt with it against the same domain; else
    one attempt with the keep-alive dialer per configured address, followed,
    only when the credential set carries an SSH config, by one attempt with
    the tunnel dialer per configured address); and when every credential set
    before it resolves too, the loop running alone does finish that
    iteration and has then started exactly these attempts. *)
Theorem attempts_enumerated_once_reached (cfg : Config.t) (sched : list action)
    (i : nat) (cr : Credentials.t) :
  Config.Credentials cfg !! i = Some cr ->
  resolves cr ->
  (loopPassed i (mainpc (run sched (initState cfg))) ->
   let started := launchedFor i (pool (run sched (initState cfg))) in
   let direct := (fun addr => (Some (NewDialer (Config.KeepAlivePeriod cfg)
                                               (Config.DialTimeout cfg)), addr))
                   <$> Config.Addrs cfg in
   started = enumeratedAttempts cfg cr
   /\ (forall d, Credentials.Dialer cr = (d, None) -> started = [(d, APIDomain)])
   /\ (forall d e d', Credentials.Dialer cr = (d, Some e) -> Config.Dialer cfg = Some d' ->
         started = [(Some d', APIDomain)])
   /\ (forall d e, Credentials.Dialer cr = (d, Some e) -> Config.Dialer cfg = None ->
         fst (Credentials.SSHConfig cr) = None -> started = direct)
   /\ (forall d e ssh, Credentials.Dialer cr = (d, Some e) -> Config.Dialer cfg = None ->
         fst (Credentials.SSHConfig cr) = Some ssh ->
         started = direct ++
                   ((fun addr => (Some (NewTunnelDialer ssh (Config.KeepAlivePeriod cfg)
                                                        (Config.DialTimeout cfg)), addr))
                      <$> Config.Addrs cfg)))
  /\ (Forall resolves (take i (Config.Credentials cfg)) ->
      exists s', exec (replicate (S i) Main) (initState cfg) = Some s'
                 /\ mainpc s' = MRange (S i)
                 /\ launchedFor i (pool s') = enumeratedAttempts cfg cr).
Proof.
  intros Hcr Hres. split.
  - intros Hpass started direct.
    destruct (loop_passed cfg _ (LoopInv_run cfg sched) i cr Hcr Hpass) as (_ & E).
    fold started in E. split; [exact E|].
    rewrite E. unfold enumeratedAttempts. repeat split.
    + intros d ->. reflexivity.
    + intros d e d' -> ->. reflexivity.
    + intros d e -> -> ->. apply app_nil_r.
    + intros d e ssh -> -> ->. reflexivity.
  - intros Hall.
    destruct (loop_runs_on cfg (S i) (initState cfg) 0) as (s' & E & M);
      try reflexivity.
    + apply lookup_lt_Some in Hcr. lia.
    + rewrite drop_0, (take_S_r _ _ _ Hcr). apply Forall_app. split; [exact Hall|].
      constructor; [exact Hres|constructor].
    + exists s'. split; [exact E|]. split; [exact M|].
      pose proof (exec_run _ _ _ E) as R.
      destruct (loop_passed cfg _ (LoopInv_run cfg (replicate (S i) Main)) i cr Hcr)
        as (_ & El).
      * rewrite R, M. cbn. lia.
      * rewrite R in El. exact El.
Qed.

Lemma attempts_enumerated_once_reached_witness :
  exists s', exec [Main] (initState exampleConfig) = Some s'
    /\ launchedFor 0 (pool s')
       = [(Some (NewDialer (60 * time_Second) (30 * time_Second)), "proxy.example.com:443");
          (Some (NewDialer (60 * time_Second) (30 * time_Second)), "auth.example.com:3025");
          (Some (NewTunnelDialer (SSH "identity") (60 * time_Second) (30 * time_Second)),
           "proxy.example.com:443");
          (Some (NewTunnelDialer (SSH "identity") (60 * time_Second) (30 * time_Second)),
           "auth.example.com:3025")]%string.
Proof.
  destruct (attempts_enumerated_once_reached exampleConfig [] 0 exampleCredentials eq_refl)
    as (_ & P).
  - split; reflexivity.
  - destruct P as (s' & E & _ & L); [constructor|].
    exists s'. split; [exact E|exact L].
Defined.

(** ** Dialers that are not nil *)





